(** * Shipwright / Scribe: step registration, validation, image tagging

  A shallow embedding of the pipeline front end ([shipwright.go]) and of the
  docker image helpers (package [docker]), with the properties the
  specification states about them.

  Conventions.
  - Go's [int] is a 64-bit two's complement integer: it is a [Z] kept in
    range by [GoInt.wrap].
  - A Go slice is a reference to a backing array.  The process keeps a heap
    of backing arrays and a slice is an address in it, so that the
    in-place writes of [initSteps] are seen by every holder of the slice.
  - Logging, the calls into the active [Client] and the commands run by the
    process are recorded, in order, in event lists. *)

From Stdlib Require Import ZArith Ascii String List Lia.
From stdpp Require Import base tactics option list strings pretty.
Import ListNotations.

Local Open Scope Z_scope.
Local Open Scope string_scope.
Local Open Scope list_scope.

(** ** Go's [int] *)

Module GoInt.

Definition min_int : Z := - 2 ^ 63.
Definition max_int : Z := 2 ^ 63 - 1.

(** Reduction to the two's complement range, as the hardware does it. *)
Definition wrap (z : Z) : Z := (z - min_int) mod 2 ^ 64 + min_int.

Definition add (a b : Z) : Z := wrap (a + b).

Definition in_range (z : Z) : Prop := min_int <= z <= max_int.

End GoInt.

(** ** Errors

  A Go [error] value as far as the program looks at it: its message and
  the chain followed by [errors.Unwrap]. *)

Module errors.

Inductive error : Type :=
| ErrorSkipValidation (text : string)
  (** the sentinel [plumbing.ErrorSkipValidation]; the text it was created
      with is declared in package [plumbing] and is carried here *)
| New (text : string)
  (** any other error value that wraps nothing *)
| Errorf (text : string) (wrapped : error).
  (** the result of [fmt.Errorf] with one [%w] verb: [text] is the
      formatted message, [wrapped] the operand of [%w] *)

Definition Error (e : error) : string :=
  match e with
  | ErrorSkipValidation text => text
  | New text => text
  | Errorf text _ => text
  end.

Definition Unwrap (e : error) : option error :=
  match e with
  | Errorf _ wrapped => Some wrapped
  | _ => None
  end.

(** [errors.Is(err, plumbing.ErrorSkipValidation)]: walk the chain and
    compare each link with the sentinel. *)
Fixpoint Is_ErrorSkipValidation (e : error) : bool :=
  match e with
  | ErrorSkipValidation _ => true
  | New _ => false
  | Errorf _ wrapped => Is_ErrorSkipValidation wrapped
  end.

End errors.

(** ** What a process does to the outside: commands, docker calls, log lines *)

Module sys.

Inductive Call : Type :=
| Exec (name : string) (args : list string)
  (** [exec.Command(name, args...).CombinedOutput()] *)
| DockerBuild (names : list string) (dockerfile contextDir : string)
              (buildArgs : list (string * string))
| DockerPush (name registry authToken : string)
| Infoln (words : list string).

(** The calls made so far, oldest first. *)
Definition World : Type := list Call.

(** What a call gives back: combined output and error. *)
Definition Reply : Type := (string * option errors.error)%type.

(** The environment: the reply to a call may depend on everything the
    process did before. *)
Definition Oracle : Type := World -> Call -> Reply.

Definition call (env : Oracle) (c : Call) (w : World) : Reply * World :=
  (env w c, w ++ [c]).

End sys.

(** ** Package [pipeline]: arguments and steps *)

Module pipeline.

Inductive Argument : Type :=
| ArgumentSourceFS
| ArgumentDockerSocketFS
| NamedValue (key : string).

Record ActionOpts : Type := {
  (** [opts.State.GetString]: the value stored for an argument, or the
      lookup error *)
  State_GetString : Argument -> string + errors.error
}.

Definition StepAction : Type :=
  ActionOpts -> sys.World -> option errors.error * sys.World.

Record Step : Type := {
  Serial : Z;
  Name : string;
  Image : string;
  Arguments : list Argument;
  Action : StepAction
}.

(** Modelled from the spec: the constructor and the decorators of [Step]
    are declared in package [pipeline], which is not among the sources.
    [NewStep] builds a step from an action with nothing else set; a
    decorator returns a copy of the step with one field replaced. *)
Definition NewStep (action : StepAction) : Step :=
  {| Serial := 0; Name := ""; Image := ""; Arguments := []; Action := action |}.

Definition WithImage (s : Step) (image : string) : Step :=
  {| Serial := Serial s; Name := Name s; Image := image;
     Arguments := Arguments s; Action := Action s |}.

Definition WithName (s : Step) (name : string) : Step :=
  {| Serial := Serial s; Name := name; Image := Image s;
     Arguments := Arguments s; Action := Action s |}.

Definition WithArguments (s : Step) (args : list Argument) : Step :=
  {| Serial := Serial s; Name := Name s; Image := Image s;
     Arguments := args; Action := Action s |}.

(** The assignment [step.Serial = n] on a struct value. *)
Definition set_Serial (n : Z) (s : Step) : Step :=
  {| Serial := n; Name := Name s; Image := Image s;
     Arguments := Arguments s; Action := Action s |}.

End pipeline.

(** ** [shipwright.go]: the front end every pipeline definition goes through *)

Module shipwright.

Import pipeline.

(** The part of the [Client] interface that [Run] and [Parallel] decide
    on: [Validate].  The calls of [Client.Run] and [Client.Parallel] are
    recorded as events. *)
Record Client : Type := {
  Validate : Step -> option errors.error
}.

Inductive Event : Type :=
| Warnln (msg : string)
| Fatalln (msg : string)
| ClientValidate (step : Step)
| ClientRun (steps : list Step)
| ClientParallel (steps : list Step).

(** The fields of [Shipwright] that the front end reads and writes. *)
Record Shipwright : Type := {
  n : Z;
  Version : string
}.

(** A slice of steps: the address of its backing array. *)
Definition slice : Type := nat.

Record Process : Type := {
  sw : Shipwright;
  heap : list (list Step);
  log : list Event
}.

Inductive Outcome (A : Type) : Type :=
| Returned (a : A)
| Exited (status : Z)
| Panicked.

Arguments Returned {A} a.
Arguments Exited {A} status.
Arguments Panicked {A}.

Definition M (A : Type) : Type := Process -> Outcome A * Process.

#[global] Instance M_ret : MRet M := fun A a p => (Returned a, p).

#[global] Instance M_bind : MBind M := fun A B f m p =>
  match m p with
  | (Returned a, p') => f a p'
  | (Exited status, p') => (Exited status, p')
  | (Panicked, p') => (Panicked, p')
  end.

Definition this : M Shipwright := fun p => (Returned (sw p), p).

Definition set_n (k : Z) : M unit := fun p =>
  (Returned tt,
   {| sw := {| n := k; Version := Version (sw p) |}; heap := heap p; log := log p |}).

Definition emit (e : Event) : M unit := fun p =>
  (Returned tt, {| sw := sw p; heap := heap p; log := log p ++ [e] |}).

(** A call with explicit arguments, [f(a, b, c)], builds a new slice. *)
Definition make (steps : list Step) : M slice := fun p =>
  (Returned (length (heap p)),
   {| sw := sw p; heap := heap p ++ [steps]; log := log p |}).

Definition contents (s : slice) : M (list Step) := fun p =>
  match heap p !! s with
  | Some arr => (Returned arr, p)
  | None => (Panicked, p)
  end.

Definition len (s : slice) : M nat := arr ← contents s; mret (length arr).

(** [s[i]] read: out of range panics. *)
Definition index (s : slice) (i : nat) : M Step := fun p =>
  match heap p !! s ≫= (.!! i) with
  | Some v => (Returned v, p)
  | None => (Panicked, p)
  end.

(** [s[i] = v]: written into the backing array. *)
Definition assign (s : slice) (i : nat) (v : Step) : M unit := fun p =>
  match heap p !! s with
  | Some arr =>
      if decide (i < length arr)%nat
      then (Returned tt,
            {| sw := sw p; heap := <[s := <[i := v]> arr]> (heap p); log := log p |})
      else (Panicked, p)
  | None => (Panicked, p)
  end.

(** [for i := range s { body }] over the indices fixed when the loop starts. *)
Fixpoint for_range (idx : list nat) (body : nat -> M unit) : M unit :=
  match idx with
  | [] => mret tt
  | i :: rest => body i ;; for_range rest body
  end.

(** Modelled from the spec: package [plog] is not among the sources.
    [Warnln] writes a warning and returns; [Fatalln] writes a process-level
    fatal report and ends the process with status 1, so the statement after
    it is never reached. *)
Definition plog_Warnln (msg : string) : M unit := emit (Warnln msg).

Definition plog_Fatalln (msg : string) : M unit := fun p =>
  (Exited 1, {| sw := sw p; heap := heap p; log := log p ++ [Fatalln msg] |}).

Definition formatError (step : Step) (err : errors.error) : string :=
  let name := Name step in
  let name := if decide (name = "") then "unnamed-step-" +:+ pretty (Serial step) else name in
  "[name: " +:+ name +:+ ", id: " +:+ pretty (Serial step) +:+ "] " +:+ errors.Error err.

Section FrontEnd.

(** [plumbing.DefaultImage], declared in a package that is not among the
    sources: the default image for a version. *)
Variable DefaultImage : string -> string.

(** The active backend. *)
Variable client : Client.

(** The body of the loop of [initSteps], for the index [i]. *)
Definition initSteps_body (steps : slice) (i : nat) : M unit :=
  step ← index steps i;
  (if decide (Image step = "")
   then s ← this;
        let image := DefaultImage (Version s) in
        assign steps i (WithImage step image)
   else mret tt) ;;
  s ← this;
  cur ← index steps i;
  assign steps i (set_Serial (n s) cur) ;;
  set_n (GoInt.add (n s) 1).

Definition initSteps (steps : slice) : M slice :=
  k ← len steps;
  for_range (seq 0 k) (initSteps_body steps) ;;
  mret steps.

(** The body of the loop of [validateSteps]: [continue] ends the body,
    [Fatalln] ends the process. *)
Definition validateSteps_body (steps : slice) (i : nat) : M unit :=
  v ← index steps i;
  emit (ClientValidate v) ;;
  match Validate client v with
  | None => mret tt
  | Some err =>
      if errors.Is_ErrorSkipValidation err
      then plog_Warnln (formatError v err)
      else plog_Fatalln (formatError v err)
  end.

Definition validateSteps (steps : slice) : M unit :=
  k ← len steps;
  for_range (seq 0 k) (validateSteps_body steps).

Definition Run (steps : slice) : M unit :=
  initializedSteps ← initSteps steps;
  validateSteps steps ;;
  arr ← contents initializedSteps;
  emit (ClientRun arr).

Definition Parallel (steps : slice) : M unit :=
  initializedSteps ← initSteps steps;
  validateSteps steps ;;
  arr ← contents initializedSteps;
  emit (ClientParallel arr).

(** A pipeline definition: the [Run] and [Parallel] calls it makes, in
    order, each with its arguments written out. *)
Inductive Stmt : Type :=
| RunStmt (steps : list Step)
| ParallelStmt (steps : list Step).

Definition declared (st : Stmt) : list Step :=
  match st with
  | RunStmt steps => steps
  | ParallelStmt steps => steps
  end.

Definition exec_stmt (st : Stmt) : M unit :=
  match st with
  | RunStmt steps => s ← make steps; Run s
  | ParallelStmt steps => s ← make steps; Parallel s
  end.

Fixpoint exec (prog : list Stmt) : M unit :=
  match prog with
  | [] => mret tt
  | st :: rest => exec_stmt st ;; exec rest
  end.

End FrontEnd.

(** What a list of events says. *)

Definition validated (evs : list Event) : list Step :=
  flat_map (fun e => match e with ClientValidate v => [v] | _ => [] end) evs.

Definition handed_over (evs : list Event) : list Step :=
  flat_map (fun e => match e with
                     | ClientRun steps => steps
                     | ClientParallel steps => steps
                     | _ => []
                     end) evs.

Definition warnings (evs : list Event) : list string :=
  flat_map (fun e => match e with Warnln msg => [msg] | _ => [] end) evs.

Definition fatals (evs : list Event) : list string :=
  flat_map (fun e => match e with Fatalln msg => [msg] | _ => [] end) evs.

Definition is_client_call (e : Event) : bool :=
  match e with
  | ClientRun _ | ClientParallel _ => true
  | _ => false
  end.

(** The events a computation adds to the log of the process it starts in. *)
Definition new_events {A} (m : M A) (p : Process) : list Event :=
  drop (length (log p)) (log (snd (m p))).

End shipwright.

(** ** [shipwright.New]: the signal watcher

    [New] makes a channel of capacity one, asks the runtime to relay
    SIGHUP, SIGINT, SIGTERM and SIGQUIT to it, and starts a goroutine that
    receives one signal and prints the escape sequence that shows the
    cursor again. *)

Module watcher.

Inductive Signal : Type := SIGHUP | SIGINT | SIGTERM | SIGQUIT.

(** ESC [ ? 2 5 h *)
Definition show_cursor : string := String "027"%char "[?25h".

Record Runtime : Type := {
  sigs : list Signal;
  (** the buffer of the channel [sigs] *)
  waiting : bool;
  (** the goroutine is still blocked on the receive *)
  stdout : list string;
  (** what [fmt.Print] wrote, oldest first *)
  in_flight : list nat;
  (** the spawned processes that are still running *)
  exited : bool
  (** the process has ended *)
}.

Definition capacity : nat := 1.

(** The state [New] leaves behind, around whatever the process has
    printed and spawned. *)
Definition New (out : list string) (children : list nat) : Runtime :=
  {| sigs := []; waiting := true; stdout := out; in_flight := children;
     exited := false |}.

(** The runtime relays a registered signal with a send that does not
    block: a signal that finds the buffer full is dropped.  A relayed
    signal no longer ends the process. *)
Definition deliver (s : Signal) (r : Runtime) : Runtime :=
  if decide (length (sigs r) < capacity)%nat
  then {| sigs := sigs r ++ [s]; waiting := waiting r; stdout := stdout r;
          in_flight := in_flight r; exited := exited r |}
  else r.

(** The goroutine: [<-sigs; fmt.Print(show_cursor)], then it ends. *)
Definition goroutine (r : Runtime) : Runtime :=
  match waiting r, sigs r with
  | true, _ :: rest =>
      {| sigs := rest; waiting := false; stdout := stdout r ++ [show_cursor];
         in_flight := in_flight r; exited := exited r |}
  | _, _ => r
  end.

Inductive Move : Type :=
| Deliver (s : Signal)
| Schedule.

Definition move (m : Move) (r : Runtime) : Runtime :=
  match m with
  | Deliver s => deliver s r
  | Schedule => goroutine r
  end.

Definition run (ms : list Move) (r : Runtime) : Runtime :=
  fold_left (fun r m => move m r) ms r.

(** The goroutine prints once, when it stops waiting. *)
Definition printed_once (out : list string) (r : Runtime) : Prop :=
  (waiting r = true /\ stdout r = out) \/
  (waiting r = false /\ stdout r = out ++ [show_cursor]).

End watcher.

(** ** Package [docker]: versions, image tags, build and push steps *)

Module docker.

Record Image : Type := {
  Name : string;
  Dockerfile : string;
  Context : string
}.

Section Docker.

(** The environment the commands run in. *)
Variable env : sys.Oracle.

(** [strings.TrimSpace] of Go's standard library. *)
Variable TrimSpace : string -> string.

(** [plumbing.DefaultImage], [plumbing.SubImage] and
    [plumbing.DefaultRegistry], declared in a package that is not among the
    sources. *)
Variable DefaultImage : string -> string.
Variable SubImage : string -> string -> string.
Variable DefaultRegistry : string.

(** Modelled from the spec: [ArgumentDockerAuthToken] is declared in a file
    of package [docker] that is not among the sources.  It is the registry
    auth token, a named-value argument; its key is left open. *)
Variable auth_token_key : string.

Definition ArgumentDockerAuthToken : pipeline.Argument :=
  pipeline.NamedValue auth_token_key.

Definition git_config : sys.Call :=
  sys.Exec "git" ["config"; "--global"; "--add"; "safe.directory"; "*"].

Definition git_describe : sys.Call :=
  sys.Exec "git" ["describe"; "--tags"; "--dirty"; "--always"].

Definition version (w : sys.World) : (string * option errors.error) * sys.World :=
  let '((out, err), w) := sys.call env git_config w in
  match err with
  | Some e =>
      (("", Some (errors.Errorf
           ("running command 'git config --global --add safe.directory *' resulted in error '"
            +:+ errors.Error e +:+ "'. Output: '" +:+ out +:+ "'") e)), w)
  | None =>
      let '((version, err), w) := sys.call env git_describe w in
      match err with
      | Some e =>
          (("", Some (errors.Errorf
               ("running command 'git describe --tags --dirty --always' resulted in the error '"
                +:+ errors.Error e +:+ "'. Output: '" +:+ version +:+ "'") e)), w)
      | None => ((TrimSpace version, None), w)
      end
  end.

Definition Tag (i : Image) (w : sys.World) : (string * option errors.error) * sys.World :=
  let '((v, err), w) := version w in
  match err with
  | Some e => (("", Some e), w)
  | None =>
      let name := DefaultImage v in
      let name := if decide (Name i <> "") then SubImage (Name i) v else name in
      ((name, err), w)
  end.

Definition BuildStep_action (i : Image) : pipeline.StepAction := fun opts w =>
  let '((tag, err), w) := Tag i w in
  match err with
  | Some e => (Some e, w)
  | None =>
      let '((v, err), w) := version w in
      match err with
      | Some e => (Some e, w)
      | None =>
          let '(_, w) :=
            sys.call env (sys.Infoln ["Building"; Dockerfile i; "with tag"; tag]) w in
          let '((_, err), w) :=
            sys.call env (sys.DockerBuild [tag] (Dockerfile i) (Context i)
                            [("VERSION", v)]) w in
          (err, w)
      end
  end.

Definition BuildStep (i : Image) (sw : shipwright.Shipwright) : pipeline.Step :=
  pipeline.WithImage
    (pipeline.WithArguments (pipeline.NewStep (BuildStep_action i))
       [pipeline.ArgumentSourceFS; pipeline.ArgumentDockerSocketFS])
    (SubImage "docker" (shipwright.Version sw)).

Definition PushStep_action (i : Image) : pipeline.StepAction := fun opts w =>
  let '((tag, err), w) := Tag i w in
  match err with
  | Some e => (Some e, w)
  | None =>
      match pipeline.State_GetString opts ArgumentDockerAuthToken with
      | inr e => (Some e, w)
      | inl auth =>
          let '(_, w) := sys.call env (sys.Infoln ["Pushing"; tag]) w in
          let '((_, err), w) :=
            sys.call env (sys.DockerPush tag DefaultRegistry auth) w in
          (err, w)
      end
  end.

Definition PushStep (i : Image) (sw : shipwright.Shipwright) : pipeline.Step :=
  pipeline.WithImage
    (pipeline.WithArguments (pipeline.NewStep (PushStep_action i))
       [pipeline.ArgumentSourceFS; pipeline.ArgumentDockerSocketFS;
        ArgumentDockerAuthToken])
    (SubImage "docker" (shipwright.Version sw)).

Definition BuildSteps (sw : shipwright.Shipwright) (images : list Image)
  : list pipeline.Step :=
  map (fun image =>
         pipeline.WithName (BuildStep image sw)
           ("build " +:+ Name image +:+ " image")) images.

Definition PushSteps (sw : shipwright.Shipwright) (images : list Image)
  : list pipeline.Step :=
  map (fun image =>
         pipeline.WithName (PushStep image sw) ("push " +:+ Name image)) images.

End Docker.

Definition ScribeImage : Image :=
  {| Name := ""; Dockerfile := "./ci/docker/scribe.Dockerfile"; Context := "." |}.

Definition Images : list Image :=
  [ {| Name := "git"; Dockerfile := "./ci/docker/scribe.git.Dockerfile"; Context := "." |};
    {| Name := "go"; Dockerfile := "./ci/docker/scribe.go.Dockerfile"; Context := "." |};
    {| Name := "node"; Dockerfile := "./ci/docker/scribe.node.Dockerfile"; Context := "." |};
    {| Name := "docker"; Dockerfile := "./ci/docker/scribe.docker.Dockerfile"; Context := "." |} ].

(** Reading a history of calls. *)

Definition is_describe (c : sys.Call) : bool :=
  match c with
  | sys.Exec "git" ("describe" :: _) => true
  | _ => false
  end.

Definition is_push (c : sys.Call) : bool :=
  match c with
  | sys.DockerPush _ _ _ => true
  | _ => false
  end.

Definition describe_runs (w : sys.World) : nat := length (List.filter is_describe w).

Definition pushes (w : sys.World) : nat := length (List.filter is_push w).

End docker.

(** ** The manifest backend (package [drone])

    Of this backend the sources hold the package comment, with an example
    of an emitted pipeline, and a test that compares the emitted text with
    a reference file.  The code that emits is not among them. *)

Module drone.

(** One record of the manifest, with the keys of the example. *)
Record Step : Type := {
  name : string;
  image : string;
  commands : list string;
  depends_on : list string
}.

Record Client : Type := {
  path : string;
  (** the path the re-invocation command line ends with *)
  steps : list Step;
  (** the records so far, in declaration order *)
  previous : list string
  (** the names of the records of the latest stage *)
}.

Section Manifest.

(** The name of a record is derived from the name of the step by a
    function of package [stringutil], which is not among the sources. *)
Variable Slugify : string -> string.

Definition New (path : string) : Client :=
  {| path := path; steps := []; previous := [] |}.

(** Modelled from the spec: the emitting code of the manifest backend is
    missing.  Per step it records the name, the image, a command line that
    re-invokes the pipeline with the identity of the step and a path, and a
    dependency list: every step of a stage depends on every step of the
    stage before it, and on nothing earlier.  No action is executed.  How
    the calls of [Run] and [Parallel] are grouped into stages is decided by
    the missing code; in the example of the package comment the two
    installs are one stage and every later step is a stage of its own. *)
Definition record (c : Client) (s : pipeline.Step) : Step :=
  {| name := Slugify (pipeline.Name s);
     image := pipeline.Image s;
     commands := ["shipwright -step=" +:+ pretty (pipeline.Serial s) +:+ " " +:+ path c];
     depends_on := previous c |}.

Definition stage (c : Client) (ss : list pipeline.Step) : Client :=
  let records := map (record c) ss in
  {| path := path c; steps := steps c ++ records; previous := map name records |}.

(** [Done] hands the accumulated records, in declaration order, to the
    serializer. *)
Definition Done (c : Client) : list Step := steps c.

(** A pipeline of stages, emitted from a new client. *)
Definition emit (path : string) (stages : list (list pipeline.Step)) : Client :=
  fold_left stage stages (New path).

(** Where the records of stage [k] start in the manifest. *)
Definition offset (stages : list (list pipeline.Step)) (k : nat) : nat :=
  length (concat (take k stages)).

(** The records of stage [k] in a manifest: as many as the stage has
    steps, from where the stage starts. *)
Definition stage_records (stages : list (list pipeline.Step))
    (manifest : list Step) (k : nat) : list Step :=
  take (length (default [] (stages !! k))) (drop (offset stages k) manifest).

(** The names the steps of a stage are recorded under. *)
Definition names (ss : list pipeline.Step) : list string :=
  map (fun s => Slugify (pipeline.Name s)) ss.

(** The records stage by stage, given the names recorded for the stage
    before the first. *)
Fixpoint by_stage (path : string) (prev : list string)
    (stages : list (list pipeline.Step)) : list (list Step) :=
  match stages with
  | [] => []
  | ss :: rest =>
      map (record {| path := path; steps := []; previous := prev |}) ss
        :: by_stage path (names ss) rest
  end.

End Manifest.

End drone.

(** ** What registration and validation amount to

    Pure summaries of the loops of [initSteps] and [validateSteps], against
    which the stateful code is proved below. *)

Module registry.

Import pipeline shipwright.

(** The value of the counter [n] after [N] increments from [k]. *)
Definition counter (k : Z) (N : nat) : Z :=
  Nat.iter N (fun k => GoInt.add k 1) k.

Section Registry.

Variable DefaultImage : string -> string.
Variable client : Client.

(** One step as [initSteps] leaves it, for a version and a counter value. *)
Definition registered (ver : string) (k : Z) (st : Step) : Step :=
  set_Serial k (if decide (Image st = "") then WithImage st (DefaultImage ver) else st).

Fixpoint register_from (ver : string) (k : Z) (l : list Step) : list Step :=
  match l with
  | [] => []
  | st :: rest => registered ver k st :: register_from ver (GoInt.add k 1) rest
  end.

(** The verdict of [Validate] on a step: it passes, with or without a
    warning, or it is fatal. *)
Definition tolerated (v : Step) : bool :=
  match Validate client v with
  | None => true
  | Some err => errors.Is_ErrorSkipValidation err
  end.

(** The events of the validation loop over the steps, and whether the
    loop ran to its end. *)
Fixpoint validation (l : list Step) : list Event * bool :=
  match l with
  | [] => ([], true)
  | v :: rest =>
      match Validate client v with
      | None =>
          let '(evs, ok) := validation rest in (ClientValidate v :: evs, ok)
      | Some err =>
          if errors.Is_ErrorSkipValidation err
          then let '(evs, ok) := validation rest in
               (ClientValidate v :: Warnln (formatError v err) :: evs, ok)
          else ([ClientValidate v; Fatalln (formatError v err)], false)
      end
  end.

(** The warnings due for a list of steps: one for each skippable error. *)
Definition warnings_for (l : list Step) : list string :=
  flat_map (fun v => match Validate client v with
                     | Some err =>
                         if errors.Is_ErrorSkipValidation err
                         then [formatError v err] else []
                     | None => []
                     end) l.

(** The concurrency mode of a stage, and the entry point that declares a
    stage of that mode. *)
Inductive Mode : Type := Sequential | Concurrent.

Definition entry (mode : Mode) : slice -> M unit :=
  match mode with
  | Sequential => Run DefaultImage client
  | Concurrent => Parallel DefaultImage client
  end.

Definition client_call (mode : Mode) : list Step -> Event :=
  match mode with
  | Sequential => ClientRun
  | Concurrent => ClientParallel
  end.

Definition stmt_mode (st : Stmt) : Mode :=
  match st with
  | RunStmt _ => Sequential
  | ParallelStmt _ => Concurrent
  end.

(** The shape [Run] and [Parallel] share. *)
Definition submit (call : list Step -> Event) (steps : slice) : M unit :=
  initializedSteps ← initSteps DefaultImage steps;
  validateSteps client steps ;;
  arr ← contents initializedSteps;
  emit (call arr).

End Registry.

End registry.

(** ** Concrete inputs

    The pipeline of [demo/basic/build.go], clients with the three kinds of
    verdict, an environment in which the git commands succeed and one in
    which they fail, and instances of the functions that are declared
    outside the sources. *)

Module demo.

Import pipeline shipwright.

(** The image of the example in the package comment of [drone]. *)
Definition DefaultImage (version : string) : string :=
  "grafana/shipwright:" +:+ version.

Definition SubImage (image version : string) : string :=
  "grafana/shipwright:" +:+ image +:+ "-" +:+ version.

Definition DefaultRegistry : string := "https://index.docker.io/v1/".

Definition auth_token_key : string := "docker_auth_token".

(** [strings.TrimSpace] on ASCII text. *)
Definition is_space (c : ascii) : bool :=
  match c with
  | "009"%char | "010"%char | "011"%char | "012"%char | "013"%char | " "%char => true
  | _ => false
  end.

Fixpoint trim_left (s : string) : string :=
  match s with
  | String c rest => if is_space c then trim_left rest else s
  | EmptyString => EmptyString
  end.

Definition TrimSpace (s : string) : string :=
  String.rev (trim_left (String.rev (trim_left s))).

(** An action that does nothing and succeeds. *)
Definition quiet : StepAction := fun _ w => (None, w).

(** [pipeline.NamedStep], declared in package [pipeline]. *)
Definition NamedStep (name : string) (action : StepAction) : Step :=
  WithName (NewStep action) name.

Definition install_frontend : Step := NamedStep "install frontend dependencies" quiet.
Definition install_backend : Step := NamedStep "install backend dependencies" quiet.
Definition write_version : Step := NamedStep "write .version file" quiet.
Definition compile_backend : Step := NamedStep "compile backend" quiet.
Definition compile_frontend : Step := NamedStep "compile frontend" quiet.

(** A step with an image of its own and no name, as [golang.Test] builds. *)
Definition go_test : Step := WithImage (NewStep quiet) "golang:1.19".

Definition basic : list Stmt :=
  [ RunStmt [install_frontend; install_backend];
    RunStmt [write_version; compile_backend; compile_frontend] ].

(** Clients: one that accepts every step, one that insists on an image,
    one that warns about steps without a name, one that refuses them. *)
Definition accepting : Client := {| Validate := fun _ => None |}.

Definition wants_image : Client :=
  {| Validate := fun s =>
       if decide (Image s = "") then Some (errors.New "no image provided") else None |}.

Definition warns_unnamed : Client :=
  {| Validate := fun s =>
       if decide (Name s = "")
       then Some (errors.Errorf "step has no name: skipping step validation"
                    (errors.ErrorSkipValidation "skipping step validation"))
       else None |}.

Definition refuses_unnamed : Client :=
  {| Validate := fun s =>
       if decide (Name s = "") then Some (errors.New "step has no name") else None |}.

(** A process that has declared nothing yet, and one that holds a slice
    of three steps. *)
Definition fresh : Process :=
  {| sw := {| n := 0; Version := "latest" |}; heap := []; log := [] |}.

Definition holding : Process :=
  {| sw := {| n := 7; Version := "latest" |};
     heap := [[install_frontend; go_test; compile_backend]];
     log := [] |}.

(** Environments. *)
Definition git_works : sys.Oracle := fun _ c =>
  match c with
  | sys.Exec "git" ("describe" :: _) => (String.app "v0.9.2-3-g1a2b3c4" (String "010"%char ""), None)
  | _ => ("", None)
  end.

Definition git_fails : sys.Oracle := fun _ c =>
  match c with
  | sys.Exec _ _ => ("fatal: not a git repository", Some (errors.New "exit status 128"))
  | _ => ("", None)
  end.

(** A state without the token and a state with it. *)
Definition no_token : ActionOpts :=
  {| State_GetString := fun _ => inr (errors.New "key not found in state") |}.

Definition with_token : ActionOpts :=
  {| State_GetString := fun a =>
       match a with
       | NamedValue "docker_auth_token" => inl "s3cr3t"
       | _ => inr (errors.New "key not found in state")
       end |}.

(** The clone step every emitted pipeline starts with in the example of
    the package comment of [drone]. *)
Definition clone : Step := NamedStep "clone" quiet.

(** A slug of ASCII text: letters and digits are kept, letters in lower
    case, and every run of other characters between them becomes one
    dash. *)
Definition slug_char (c : ascii) : option ascii :=
  let k := nat_of_ascii c in
  if ((48 <=? k) && (k <=? 57))%nat then Some c
  else if ((97 <=? k) && (k <=? 122))%nat then Some c
  else if ((65 <=? k) && (k <=? 90))%nat then Some (ascii_of_nat (k + 32))
  else None.

Fixpoint slug_from (started pending : bool) (s : string) : string :=
  match s with
  | EmptyString => EmptyString
  | String c rest =>
      match slug_char c with
      | Some c' =>
          if started && pending
          then String "-"%char (String c' (slug_from true false rest))
          else String c' (slug_from true false rest)
      | None => slug_from started true rest
      end
  end.

Definition Slugify (s : string) : string := slug_from false false s.

(** The stages of the package comment, registered from the counter 0
    for the version "latest": the clone step, two installs side by side,
    then three steps one after the other. *)
Definition commented : list (list Step) :=
  let reg := registry.registered DefaultImage "latest" in
  [ [reg 0 clone];
    [reg 1 install_frontend; reg 2 install_backend];
    [reg 3 write_version];
    [reg 4 compile_backend];
    [reg 5 compile_frontend] ].

End demo.

(** ** A pipeline definition as a whole

    The events of a run of a definition and whether it runs to its end,
    as a function of the version and of the counter it starts with. *)

Module program.

Import pipeline shipwright registry.

Section Program.

Variable DefaultImage : string -> string.
Variable client : Client.

Fixpoint trace (ver : string) (k : Z) (prog : list Stmt) : list Event * bool :=
  match prog with
  | [] => ([], true)
  | st :: rest =>
      let steps := register_from DefaultImage ver k (declared st) in
      let '(evs, ok) := validation client steps in
      if ok
      then let '(more, ok') := trace ver (counter k (length (declared st))) rest in
           (evs ++ client_call (stmt_mode st) steps :: more, ok')
      else (evs, false)
  end.

End Program.

End program.

(** ** Reading reports back *)

Module text.

(** Whether a comma occurs in a string. *)
Fixpoint has_comma (s : string) : bool :=
  match s with
  | EmptyString => false
  | String c rest => if Ascii.eqb c ","%char then true else has_comma rest
  end.

End text.

(** ** More on the histories of package [docker] *)

Module history.

Definition is_build (c : sys.Call) : bool :=
  match c with
  | sys.DockerBuild _ _ _ _ => true
  | _ => false
  end.

Definition builds (w : sys.World) : nat := length (List.filter is_build w).

Definition is_git (c : sys.Call) : bool :=
  match c with
  | sys.Exec "git" _ => true
  | _ => false
  end.

(** An environment in which the git commands succeed and answer the same
    whatever the process did before. *)
Definition steady (env : sys.Oracle) (out : string) : Prop :=
  forall w,
    snd (env w docker.git_config) = None /\
    env w docker.git_describe = (out, None).

End history.

(** ** Package [exec]: running commands *)

Module goexec.

(** A [context.Context] and a non-nil [io.Writer], as far as this package
    passes them on. *)
Definition Context : Type := nat.
Definition Writer : Type := nat.

Record RunOpts : Type := {
  Path : string;
  Stdout : option Writer;
  Stderr : option Writer;
  Name : string;
  Args : list string;
  Env : option (list string)
}.

(** The fields of [exec.Cmd] that are set here.  A [nil] stream is [None];
    a [nil] environment is [None]. *)
Record Cmd : Type := {
  cmd_Context : Context;
  cmd_Path : string;
  cmd_Args : list string;
  cmd_Dir : string;
  cmd_Stdout : option Writer;
  cmd_Stderr : option Writer;
  cmd_Env : option (list string)
}.

(** [exec.CommandContext] of the standard library: the name, the name
    followed by the arguments, and nothing else set.  The lookup of the
    name in the search path is left out: [cmd_Path] is the name as given. *)
Definition CommandContext (ctx : Context) (name : string) (arg : list string) : Cmd :=
  {| cmd_Context := ctx; cmd_Path := name; cmd_Args := name :: arg; cmd_Dir := "";
     cmd_Stdout := None; cmd_Stderr := None; cmd_Env := None |}.

Definition set_Dir (dir : string) (c : Cmd) : Cmd :=
  {| cmd_Context := cmd_Context c; cmd_Path := cmd_Path c; cmd_Args := cmd_Args c;
     cmd_Dir := dir; cmd_Stdout := cmd_Stdout c; cmd_Stderr := cmd_Stderr c;
     cmd_Env := cmd_Env c |}.

Definition set_Stdout (out : option Writer) (c : Cmd) : Cmd :=
  {| cmd_Context := cmd_Context c; cmd_Path := cmd_Path c; cmd_Args := cmd_Args c;
     cmd_Dir := cmd_Dir c; cmd_Stdout := out; cmd_Stderr := cmd_Stderr c;
     cmd_Env := cmd_Env c |}.

Definition set_Stderr (err : option Writer) (c : Cmd) : Cmd :=
  {| cmd_Context := cmd_Context c; cmd_Path := cmd_Path c; cmd_Args := cmd_Args c;
     cmd_Dir := cmd_Dir c; cmd_Stdout := cmd_Stdout c; cmd_Stderr := err;
     cmd_Env := cmd_Env c |}.

Definition set_Env (env : option (list string)) (c : Cmd) : Cmd :=
  {| cmd_Context := cmd_Context c; cmd_Path := cmd_Path c; cmd_Args := cmd_Args c;
     cmd_Dir := cmd_Dir c; cmd_Stdout := cmd_Stdout c; cmd_Stderr := cmd_Stderr c;
     cmd_Env := env |}.

Definition CommandWithOpts (ctx : Context) (opts : RunOpts) : Cmd :=
  let c := CommandContext ctx (Name opts) (Args opts) in
  let c := set_Dir (Path opts) c in
  let c := match Stdout opts with
           | Some out => set_Stdout (Some out) c
           | None => c
           end in
  let c := match Stderr opts with
           | Some err => set_Stderr (Some err) c
           | None => c
           end in
  let c := set_Env (Env opts) c in
  c.

(** The commands started so far, oldest first, and what [Cmd.Run] returns
    for a command started after them. *)
Definition World : Type := list Cmd.

Section Running.

Variable run : World -> Cmd -> option errors.error.

Definition Cmd_Run (c : Cmd) (w : World) : option errors.error * World :=
  (run w c, w ++ [c]).

Definition RunCommandWithOpts (ctx : Context) (opts : RunOpts) (w : World)
  : option errors.error * World :=
  Cmd_Run (CommandWithOpts ctx opts) w.

Definition RunCommandAt (ctx : Context) (stdout stderr : option Writer)
    (path name : string) (arg : list string) (w : World)
  : option errors.error * World :=
  RunCommandWithOpts ctx
    {| Path := path; Name := name; Args := arg; Stderr := stderr; Stdout := stdout;
       Env := None |} w.

Definition RunCommand (ctx : Context) (stdout stderr : option Writer)
    (name : string) (arg : list string) (w : World)
  : option errors.error * World :=
  RunCommandAt ctx stdout stderr "." name arg w.

(** The streams of [pipeline.ActionOpts], which the actions of this
    package read. *)
Record ActionOpts : Type := {
  opts_Stdout : option Writer;
  opts_Stderr : option Writer
}.

Definition StepAction : Type :=
  Context -> ActionOpts -> World -> option errors.error * World.

Definition Run (name : string) (arg : list string) : StepAction :=
  fun ctx opts => RunCommand ctx (opts_Stdout opts) (opts_Stderr opts) name arg.

Definition RunAt (path name : string) (arg : list string) : StepAction :=
  fun ctx opts => RunCommandAt ctx (opts_Stdout opts) (opts_Stderr opts) path name arg.

End Running.

End goexec.

(** ** [CopyFile] *)

Module fsutil.

(** The calls into [os] and [io]; a file is known by the name it was
    opened or created under. *)
Inductive Op : Type :=
| Open (name : string)
| Stat (name : string)
| MkdirAll (path : string) (perm : N)
| Create (name : string)
| Copy (dst src : string)
| Close (name : string).

(** What a call gives back: its error, and for [Stat] what [IsDir] says
    of the info when the info is not [nil]. *)
Record Reply : Type := {
  err : option errors.error;
  info : option bool
}.

Definition World : Type := list Op.

Definition Oracle : Type := World -> Op -> Reply.

Section CopyFile.

Variable env : Oracle.

(** [filepath.Dir] of the standard library. *)
Variable Dir : string -> string.

(** [errors.Is(err, fs.ErrNotExist)]. *)
Variable is_not_exist : errors.error -> bool.

Definition call (op : Op) (w : World) : Reply * World := (env w op, w ++ [op]).

(** From [os.Create] on, with the deferred close of the destination. *)
Definition write (from to : string) (w : World) : option errors.error * World :=
  let '(created, w) := call (Create to) w in
  match err created with
  | Some e => (Some e, w)
  | None =>
      let '(copied, w) := call (Copy to from) w in
      let result := match err copied with
                    | Some e => Some e
                    | None => None
                    end in
      let '(_, w) := call (Close to) w in
      (result, w)
  end.

(** From [os.Stat] on. *)
Definition place (from to : string) (w : World) : option errors.error * World :=
  let '(st, w) := call (Stat (Dir to)) w in
  let check (w : World) :=
    match info st with
    | Some false => (Some (errors.New "not a directory"), w)
    | _ => write from to w
    end in
  match err st with
  | Some e =>
      if is_not_exist e
      then let '(made, w) := call (MkdirAll (Dir to) 493) w in
           match err made with
           | Some e' => (Some e', w)
           | None => check w
           end
      else (Some e, w)
  | None => check w
  end.

Definition CopyFile (from to : string) (w : World) : option errors.error * World :=
  let '(opened, w) := call (Open from) w in
  match err opened with
  | Some e => (Some e, w)
  | None =>
      let '(result, w) := place from to w in
      let '(_, w) := call (Close from) w in
      (result, w)
  end.

(** The directory check of [CopyFile] by itself, after the source was
    opened: the error it stops the copy with, if it does, and the history
    at that point. *)
Definition cleared (to : string) (w : World) : option errors.error * World :=
  let st := env w (Stat (Dir to)) in
  let w1 := w ++ [Stat (Dir to)] in
  let check w' :=
    match info st with
    | Some false => (Some (errors.New "not a directory"), w')
    | _ => (None, w')
    end in
  match err st with
  | Some e =>
      if is_not_exist e
      then match err (env w1 (MkdirAll (Dir to) 493)) with
           | Some e' => (Some e', w1 ++ [MkdirAll (Dir to) 493])
           | None => check (w1 ++ [MkdirAll (Dir to) 493])
           end
      else (Some e, w1)
  | None => check w1
  end.

End CopyFile.

(** Reading a history. *)

Definition is_close (name : string) (op : Op) : bool :=
  match op with
  | Close n => if decide (n = name) then true else false
  | _ => false
  end.

Definition is_create (op : Op) : bool :=
  match op with
  | Create _ => true
  | _ => false
  end.

Definition is_copy (op : Op) : bool :=
  match op with
  | Copy _ _ => true
  | _ => false
  end.

Definition is_mkdir (op : Op) : bool :=
  match op with
  | MkdirAll _ _ => true
  | _ => false
  end.

Definition count (f : Op -> bool) (w : World) : nat := length (List.filter f w).

End fsutil.

(** ** [shipwright.New]: arguments, client, version *)

Module entrypoint.

Import shipwright.

(** The field of [plumbing.PipelineArgs] that [New] reads on its own
    account. *)
Record PipelineArgs : Type := {
  args_Version : string
}.

(** The fields of [pipeline.CommonOpts] that [New] computes; the output
    stream and the logger are the standard ones. *)
Record CommonOpts : Type := {
  opts_Name : string;
  opts_Version : string;
  opts_Args : PipelineArgs
}.

Definition panic {A} : M A := fun p => (Panicked, p).

Definition set_Version (version : string) (s : Shipwright) : Shipwright :=
  {| n := n s; Version := version |}.

Section New.

(** [plumbing.ParseArguments] and [NewClient], declared in files that are
    not among the sources. *)
Variable ParseArguments : list string -> option PipelineArgs * option errors.error.
Variable NewClient : CommonOpts -> Shipwright.

Definition NewFromOpts (opts : CommonOpts) : Shipwright := NewClient opts.

(** [New], up to the signal watcher; [os_Args] is [os.Args], and slicing
    it from 1 panics when it is empty. *)
Definition New (name : string) (os_Args : list string) : M Shipwright :=
  match os_Args with
  | [] => panic
  | _ :: rest =>
      let '(args, err) := ParseArguments rest in
      (match err with
       | Some e => plog_Fatalln ("Error parsing arguments. Error: " +:+ errors.Error e)
       | None => mret tt
       end) ;;
      match args with
      | None =>
          plog_Fatalln "Arguments list must not be nil" ;;
          mret {| n := 0; Version := "" |}
      | Some args =>
          let sw := NewFromOpts {| opts_Name := name;
                                   opts_Version := args_Version args;
                                   opts_Args := args |} in
          let sw := set_Version (args_Version args) sw in
          mret sw
      end
  end.

End New.

End entrypoint.

(** ** Package [golang]: the test step *)

Module golang.

Section Test.

(** [exec.RunAction], declared in a file that is not among the sources:
    the action that runs a command. *)
Variable RunAction : string -> list string -> pipeline.StepAction.

Definition Test (sw : shipwright.Shipwright) (pkg : string) : pipeline.Step :=
  pipeline.WithArguments
    (pipeline.WithImage (pipeline.NewStep (RunAction "go" ["test"; pkg])) "golang:1.19")
    [pipeline.ArgumentSourceFS].

End Test.

End golang.

(** ** The fuzzing entry point *)

Module fuzz_scribe.

Section Fuzz.

(** The structures the fuzzer fills, [cmdutil.CommandOpts] and
    [cmdutil.PipelineCommandOpts], and the consumer of the fuzzing
    library with the operations used here; errors of the consumer are
    dropped by the code. *)
Variable CommandOpts PipelineCommandOpts Consumer : Type.
Variable NewConsumer : list Byte.byte -> Consumer.
Variable GetInt : Consumer -> Z * Consumer.
Variable GetString : Consumer -> string * Consumer.
Variable GenerateCommandOpts : Consumer -> CommandOpts * Consumer.
Variable GeneratePipelineCommandOpts : Consumer -> PipelineCommandOpts * Consumer.

(** The functions under test, as calls. *)
Inductive Target : Type :=
| args_ParseArguments (testArgs : list string)
| cmdutil_StepCommand (commands : CommandOpts)
| cmdutil_PipelineCommand (commands : PipelineCommandOpts)
| jsonnet_Lint (testPath : string)
| jsonnet_Format (testPath : string)
| stringutil_Random (testLength : Z)
| stringutil_Slugify (testString : string).

(** [for i := 0; i < repeat; i++ { testArgs = append(testArgs, GetString()) }] *)
Fixpoint collect (k : nat) (c : Consumer) (testArgs : list string)
  : list string * Consumer :=
  match k with
  | O => (testArgs, c)
  | S k' => let '(temp, c) := GetString c in collect k' c (testArgs ++ [temp])
  end.

Definition mayhemit (data : list Byte.byte) : Z * list Target :=
  if (2 <? length data)%nat
  then match data with
       | [] => (0, @nil Target)
       | b :: data =>
           let num := Z.of_N (Byte.to_N b) in
           let fuzzConsumer := NewConsumer data in
           match num with
           | 0 =>
               let '(repeat, c) := GetInt fuzzConsumer in
               let '(testArgs, _) := collect (Z.to_nat repeat) c [] in
               (0, [args_ParseArguments testArgs])
           | 1 =>
               let '(commands, _) := GenerateCommandOpts fuzzConsumer in
               (0, [cmdutil_StepCommand commands])
           | 2 =>
               let '(commands, _) := GeneratePipelineCommandOpts fuzzConsumer in
               (0, [cmdutil_PipelineCommand commands])
           | 3 => let '(testPath, _) := GetString fuzzConsumer in (0, [jsonnet_Lint testPath])
           | 4 => let '(testPath, _) := GetString fuzzConsumer in (0, [jsonnet_Format testPath])
           | 5 => let '(testLength, _) := GetInt fuzzConsumer in
                  (0, [stringutil_Random testLength])
           | 6 => let '(testString, _) := GetString fuzzConsumer in
                  (0, [stringutil_Slugify testString])
           | _ => (0, [])
           end
       end
  else (0, []).

Definition Fuzz (data : list Byte.byte) : Z * list Target :=
  let '(_, calls) := mayhemit data in (0, calls).

End Fuzz.

End fuzz_scribe.

(** ** More concrete inputs *)

Module demo_more.

(** An instance of [exec.RunAction] that starts nothing. *)
Definition RunAction (name : string) (arg : list string) : pipeline.StepAction :=
  demo.quiet.

(** A pipeline that tests a package between two named steps. *)
Definition tested : list shipwright.Stmt :=
  [ shipwright.RunStmt
      [demo.install_backend;
       golang.Test RunAction (shipwright.sw demo.fresh) "./...";
       demo.compile_backend] ].

End demo_more.

(** * Facts *)

(** ** Arithmetic of Go's [int] *)

Module GoIntFacts.

Import GoInt.

Lemma wrap_in_range z : in_range (wrap z).
Proof.
  unfold in_range, wrap, min_int, max_int.
  pose proof (Z.mod_pos_bound (z - - 2 ^ 63) (2 ^ 64) ltac:(lia)). lia.
Qed.

Lemma wrap_small z : in_range z -> wrap z = z.
Proof.
  unfold in_range, wrap, min_int, max_int. intros H.
  rewrite Z.mod_small by lia. lia.
Qed.

Lemma wrap_wrap_add a b : wrap (wrap a + b) = wrap (a + b).
Proof.
  unfold wrap, min_int.
  replace ((a - - 2 ^ 63) mod 2 ^ 64 + - 2 ^ 63 + b - - 2 ^ 63)
    with ((a - - 2 ^ 63) mod 2 ^ 64 + b) by lia.
  replace (a + b - - 2 ^ 63) with ((a - - 2 ^ 63) + b) by lia.
  now rewrite Zplus_mod_idemp_l.
Qed.

End GoIntFacts.

(** ** The counter *)

Module CounterFacts.

Import registry GoIntFacts.

Lemma counter_S k N : counter k (S N) = GoInt.add (counter k N) 1.
Proof. reflexivity. Qed.

Lemma counter_shift k N : counter (GoInt.add k 1) N = counter k (S N).
Proof. unfold counter. now rewrite Nat.iter_succ_r. Qed.

Lemma counter_plus k a b : counter (counter k a) b = counter k (a + b).
Proof.
  unfold counter. rewrite (Nat.add_comm a b). now rewrite Nat.iter_add.
Qed.

(** After at least one increment the counter is the wrapped sum. *)
Lemma counter_wrap k N : counter k (S N) = GoInt.wrap (k + Z.of_nat (S N)).
Proof.
  induction N as [|N IH].
  - reflexivity.
  - rewrite counter_S, IH. unfold GoInt.add. rewrite wrap_wrap_add.
    f_equal. lia.
Qed.

(** Short of the largest [int] the counter just counts. *)
Lemma counter_exact k N :
  GoInt.in_range k -> k + Z.of_nat N <= GoInt.max_int ->
  counter k N = k + Z.of_nat N.
Proof.
  intros Hk Hle. destruct N as [|N].
  - cbn. lia.
  - rewrite counter_wrap. apply wrap_small.
    unfold GoInt.in_range in *. lia.
Qed.

End CounterFacts.

(** ** The front end, loop by loop *)

Module FrontFacts.

Import pipeline shipwright registry CounterFacts.

Lemma bind_apply {A B} (m : M A) (f : A -> M B) p :
  (m ≫= f) p =
  match m p with
  | (Returned a, p') => f a p'
  | (Exited status, p') => (Exited status, p')
  | (Panicked, p') => (Panicked, p')
  end.
Proof. reflexivity. Qed.

Lemma index_ok s i p arr v :
  heap p !! s = Some arr -> arr !! i = Some v -> index s i p = (Returned v, p).
Proof. intros Hs Hi. unfold index. rewrite Hs. simpl. now rewrite Hi. Qed.

Lemma assign_ok s i v p arr :
  heap p !! s = Some arr -> (i < length arr)%nat ->
  assign s i v p =
  (Returned tt, {| sw := sw p; heap := <[s := <[i := v]> arr]> (heap p); log := log p |}).
Proof. intros Hs Hi. unfold assign. rewrite Hs. now rewrite decide_True. Qed.

Lemma contents_ok s p arr :
  heap p !! s = Some arr -> contents s p = (Returned arr, p).
Proof. intros Hs. unfold contents. now rewrite Hs. Qed.

Lemma len_ok s p arr :
  heap p !! s = Some arr -> len s p = (Returned (length arr), p).
Proof. intros Hs. unfold len. rewrite bind_apply, (contents_ok _ _ _ Hs). reflexivity. Qed.

Lemma for_range_cons i rest body p :
  for_range (i :: rest) body p =
  match body i p with
  | (Returned _, p') => for_range rest body p'
  | (Exited status, p') => (Exited status, p')
  | (Panicked, p') => (Panicked, p')
  end.
Proof. reflexivity. Qed.

Section Loops.

Variable DefaultImage : string -> string.
Variable client : Client.

Lemma initSteps_body_ok s i p arr st :
  heap p !! s = Some arr -> arr !! i = Some st ->
  initSteps_body DefaultImage s i p =
  (Returned tt,
   {| sw := {| n := GoInt.add (n (sw p)) 1; Version := Version (sw p) |};
      heap := <[s := <[i := registered DefaultImage (Version (sw p)) (n (sw p)) st]> arr]> (heap p);
      log := log p |}).
Proof.
  intros Hs Hi.
  assert (Hlt : (i < length arr)%nat) by (eapply lookup_lt_Some; eauto).
  assert (Hsl : (s < length (heap p))%nat) by (eapply lookup_lt_Some; eauto).
  unfold initSteps_body, registered.
  rewrite bind_apply, (index_ok _ _ _ _ _ Hs Hi).
  destruct (decide (Image st = "")) as [He|He].
  - rewrite bind_apply, bind_apply. cbn [this].
    rewrite (assign_ok _ _ _ _ _ Hs Hlt).
    rewrite bind_apply. cbn [this sw heap log].
    rewrite bind_apply.
    erewrite index_ok; cycle 1.
    { cbn [heap]. apply list_lookup_insert_eq. exact Hsl. }
    { apply list_lookup_insert_eq. exact Hlt. }
    rewrite bind_apply.
    erewrite assign_ok; cycle 1.
    { cbn [heap]. apply list_lookup_insert_eq. exact Hsl. }
    { rewrite length_insert. exact Hlt. }
    cbn [sw heap log set_n].
    rewrite list_insert_insert_eq, list_insert_insert_eq. reflexivity.
  - rewrite bind_apply. cbn [mret M_ret].
    rewrite bind_apply. cbn [this].
    rewrite bind_apply, (index_ok _ _ _ _ _ Hs Hi), bind_apply.
    rewrite (assign_ok _ _ _ _ _ Hs Hlt). reflexivity.
Qed.

(** The loop of [initSteps] from index [length pre] on: the steps before
    it are left alone, the others are registered in order. *)
Lemma initSteps_loop s post : forall pre p,
  heap p !! s = Some (pre ++ post) ->
  for_range (seq (length pre) (length post)) (initSteps_body DefaultImage s) p =
  (Returned tt,
   {| sw := {| n := counter (n (sw p)) (length post); Version := Version (sw p) |};
      heap := <[s := pre ++ register_from DefaultImage (Version (sw p)) (n (sw p)) post]> (heap p);
      log := log p |}).
Proof.
  induction post as [|st post IH]; intros pre p Hs.
  - cbn [length seq for_range register_from counter Nat.iter mret M_ret].
    rewrite list_insert_id by exact Hs.
    destruct p as [[k ver] h l]. reflexivity.
  - cbn [length seq]. rewrite for_range_cons.
    erewrite initSteps_body_ok; [| exact Hs | apply list_lookup_middle; reflexivity].
    set (x := registered DefaultImage (Version (sw p)) (n (sw p)) st).
    assert (Hsl : (s < length (heap p))%nat) by (eapply lookup_lt_Some; eauto).
    assert (Hins : <[length pre := x]> (pre ++ st :: post) = (pre ++ [x]) ++ post).
    { rewrite insert_app_r_alt by lia. rewrite Nat.sub_diag. cbn.
      now rewrite <- app_assoc. }
    rewrite Hins.
    replace (S (length pre)) with (length (pre ++ [x]))
      by (rewrite length_app; cbn; lia).
    rewrite IH by (cbn [heap]; apply list_lookup_insert_eq; exact Hsl).
    cbn [sw heap log n Version].
    rewrite list_insert_insert_eq, counter_shift.
    cbn [register_from]. fold x. now rewrite <- app_assoc.
Qed.

Lemma initSteps_ok s p arr :
  heap p !! s = Some arr ->
  initSteps DefaultImage s p =
  (Returned s,
   {| sw := {| n := counter (n (sw p)) (length arr); Version := Version (sw p) |};
      heap := <[s := register_from DefaultImage (Version (sw p)) (n (sw p)) arr]> (heap p);
      log := log p |}).
Proof.
  intros Hs. unfold initSteps.
  rewrite bind_apply, (len_ok _ _ _ Hs), bind_apply.
  change (seq 0 (length arr)) with (seq (length (@nil Step)) (length arr)).
  rewrite (initSteps_loop s arr [] p Hs). reflexivity.
Qed.

(** The loop of [validateSteps] from index [length pre] on.  It writes
    nothing but the log. *)
Lemma validateSteps_loop s post : forall pre p,
  heap p !! s = Some (pre ++ post) ->
  for_range (seq (length pre) (length post)) (validateSteps_body client s) p =
  ((if snd (validation client post) then Returned tt else Exited 1),
   {| sw := sw p; heap := heap p; log := log p ++ fst (validation client post) |}).
Proof.
  induction post as [|v post IH]; intros pre p Hs.
  - cbn. rewrite app_nil_r. destruct p; reflexivity.
  - cbn [length seq]. rewrite for_range_cons.
    unfold validateSteps_body at 1.
    rewrite bind_apply.
    erewrite index_ok; [| exact Hs | apply list_lookup_middle; reflexivity].
    rewrite bind_apply. cbn [emit].
    assert (Hs' : forall l, heap {| sw := sw p; heap := heap p; log := l |} !! s
                       = Some ((pre ++ [v]) ++ post)).
    { intros l. cbn [heap]. now rewrite <- app_assoc. }
    replace (S (length pre)) with (length (pre ++ [v]))
      by (rewrite length_app; cbn; lia).
    cbn [validation].
    destruct (Validate client v) as [err|].
    + destruct (errors.Is_ErrorSkipValidation err).
      * cbn [plog_Warnln emit sw heap log].
        rewrite (IH _ _ (Hs' _)).
        destruct (validation client post) as [evs ok].
        cbn [fst snd sw heap log]. now rewrite <- !app_assoc.
      * cbn [plog_Fatalln sw heap log fst snd].
        now rewrite <- !app_assoc.
    + cbn [mret M_ret].
      rewrite (IH _ _ (Hs' _)).
      destruct (validation client post) as [evs ok].
      cbn [fst snd sw heap log]. now rewrite <- !app_assoc.
Qed.

Lemma validateSteps_ok s p arr :
  heap p !! s = Some arr ->
  validateSteps client s p =
  ((if snd (validation client arr) then Returned tt else Exited 1),
   {| sw := sw p; heap := heap p; log := log p ++ fst (validation client arr) |}).
Proof.
  intros Hs. unfold validateSteps.
  rewrite bind_apply, (len_ok _ _ _ Hs).
  change (seq 0 (length arr)) with (seq (length (@nil Step)) (length arr)).
  now rewrite (validateSteps_loop s arr [] p Hs).
Qed.

Lemma submit_ok call s p arr :
  heap p !! s = Some arr ->
  let arr' := register_from DefaultImage (Version (sw p)) (n (sw p)) arr in
  submit DefaultImage client call s p =
  ((if snd (validation client arr') then Returned tt else Exited 1),
   {| sw := {| n := counter (n (sw p)) (length arr); Version := Version (sw p) |};
      heap := <[s := arr']> (heap p);
      log := log p ++ fst (validation client arr')
               ++ (if snd (validation client arr') then [call arr'] else []) |}).
Proof.
  intros Hs arr'. unfold submit.
  assert (Hsl : (s < length (heap p))%nat) by (eapply lookup_lt_Some; eauto).
  rewrite bind_apply, (initSteps_ok _ _ _ Hs). fold arr'.
  rewrite bind_apply.
  erewrite validateSteps_ok
    by (cbn [heap]; apply list_lookup_insert_eq; exact Hsl).
  cbn [sw heap log].
  destruct (validation client arr') as [evs [|]]; cbn [fst snd].
  - rewrite bind_apply.
    erewrite contents_ok
      by (cbn [heap]; apply list_lookup_insert_eq; exact Hsl).
    unfold emit. cbn [sw heap log]. now rewrite <- app_assoc.
  - now rewrite app_nil_r.
Qed.

Lemma entry_is_submit mode s :
  entry DefaultImage client mode s = submit DefaultImage client (client_call mode) s.
Proof. destruct mode; reflexivity. Qed.

End Loops.

End FrontFacts.

(** ** The summaries themselves *)

Module RegistryFacts.

Import pipeline shipwright registry CounterFacts FrontFacts.

Lemma validated_app a b : validated (a ++ b) = validated a ++ validated b.
Proof. apply flat_map_app. Qed.

Lemma handed_over_app a b : handed_over (a ++ b) = handed_over a ++ handed_over b.
Proof. apply flat_map_app. Qed.

Lemma warnings_app a b : warnings (a ++ b) = warnings a ++ warnings b.
Proof. apply flat_map_app. Qed.

Lemma fatals_app a b : fatals (a ++ b) = fatals a ++ fatals b.
Proof. apply flat_map_app. Qed.

(** The events added by a computation whose log grows at the end. *)
Lemma new_events_of {A} (m : M A) p o p' evs :
  m p = (o, p') -> log p' = log p ++ evs -> new_events m p = evs.
Proof.
  intros Hm Hl. unfold new_events. rewrite Hm. cbn [snd]. rewrite Hl.
  now rewrite drop_app_length.
Qed.

Section Summaries.

Variable DefaultImage : string -> string.
Variable client : Client.

Lemma register_from_length ver k l :
  length (register_from DefaultImage ver k l) = length l.
Proof. revert k. induction l as [|st l IH]; intros k; cbn; [|rewrite IH]; reflexivity. Qed.

Lemma register_from_lookup ver l : forall k i,
  register_from DefaultImage ver k l !! i =
  registered DefaultImage ver (counter k i) <$> l !! i.
Proof.
  induction l as [|st l IH]; intros k i.
  - reflexivity.
  - destruct i as [|i]; [reflexivity|].
    cbn [register_from]. rewrite !lookup_cons. rewrite IH.
    now rewrite counter_shift.
Qed.

Lemma register_from_app ver a : forall k b,
  register_from DefaultImage ver k (a ++ b) =
  register_from DefaultImage ver k a
    ++ register_from DefaultImage ver (counter k (length a)) b.
Proof.
  induction a as [|st a IH]; intros k b.
  - reflexivity.
  - cbn [app register_from length]. rewrite IH. now rewrite counter_shift.
Qed.

Lemma registered_Image ver k st :
  Image (registered DefaultImage ver k st) =
  if decide (Image st = "") then DefaultImage ver else Image st.
Proof. unfold registered. destruct (decide (Image st = "")); reflexivity. Qed.

Lemma registered_Serial ver k st : Serial (registered DefaultImage ver k st) = k.
Proof. reflexivity. Qed.

Lemma registered_Name ver k st : Name (registered DefaultImage ver k st) = Name st.
Proof. unfold registered. destruct (decide (Image st = "")); reflexivity. Qed.

(** Validation hands nothing to the client. *)
Lemma validation_no_client_call l :
  forallb (fun e => negb (is_client_call e)) (fst (validation client l)) = true.
Proof.
  induction l as [|v l IH]; [reflexivity|].
  cbn [validation].
  destruct (Validate client v) as [err|].
  - destruct (errors.Is_ErrorSkipValidation err); [|reflexivity].
    destruct (validation client l); exact IH.
  - destruct (validation client l); exact IH.
Qed.

Lemma no_client_call_handed_over evs :
  forallb (fun e => negb (is_client_call e)) evs = true -> handed_over evs = [].
Proof.
  induction evs as [|e evs IH]; [reflexivity|].
  cbn [forallb]. intros [He Hevs]%andb_prop.
  destruct e; cbn in He; try discriminate; cbn; auto.
Qed.

Lemma validation_handed_over l : handed_over (fst (validation client l)) = [].
Proof. apply no_client_call_handed_over, validation_no_client_call. Qed.

(** The loop runs to its end exactly when every step is tolerated. *)
Lemma validation_ok l :
  snd (validation client l) = forallb (tolerated client) l.
Proof.
  induction l as [|v l IH]; [reflexivity|].
  cbn [validation forallb]. unfold tolerated at 1.
  destruct (Validate client v) as [err|].
  - destruct (errors.Is_ErrorSkipValidation err); [|reflexivity].
    destruct (validation client l); exact IH.
  - destruct (validation client l); exact IH.
Qed.

(** Through tolerated steps validation goes on. *)
Lemma validation_app pre rest :
  forallb (tolerated client) pre = true ->
  validation client (pre ++ rest) =
  (fst (validation client pre) ++ fst (validation client rest),
   snd (validation client rest)).
Proof.
  induction pre as [|v pre IH]; intros Hpre.
  - cbn. now destruct (validation client rest).
  - cbn [forallb] in Hpre. apply andb_prop in Hpre as [Hv Hpre].
    specialize (IH Hpre). cbn [app validation].
    unfold tolerated in Hv.
    destruct (Validate client v) as [err|].
    + rewrite Hv. rewrite IH.
      destruct (validation client pre); reflexivity.
    + rewrite IH. destruct (validation client pre); reflexivity.
Qed.

Lemma validation_tolerated l :
  forallb (tolerated client) l = true ->
  validated (fst (validation client l)) = l /\
  warnings (fst (validation client l)) = warnings_for client l /\
  fatals (fst (validation client l)) = [].
Proof.
  induction l as [|v l IH]; intros Hl; [easy|].
  cbn [forallb] in Hl. apply andb_prop in Hl as [Hv Hl].
  destruct (IH Hl) as (IHv & IHw & IHf).
  cbn [validation warnings_for flat_map]. unfold tolerated in Hv.
  destruct (Validate client v) as [err|].
  - rewrite Hv. destruct (validation client l) as [evs ok].
    cbn in *. now rewrite IHv, IHw, IHf.
  - destruct (validation client l) as [evs ok].
    cbn in *. now rewrite IHv, IHw, IHf.
Qed.

Lemma validation_fatal v err rest :
  Validate client v = Some err -> errors.Is_ErrorSkipValidation err = false ->
  validation client (v :: rest) =
  ([ClientValidate v; Fatalln (formatError v err)], false).
Proof. intros Hv He. cbn [validation]. now rewrite Hv, He. Qed.

(** Whatever the verdicts, the steps validated are an initial part of
    the steps given, in their order. *)
Lemma validation_validated_prefix l :
  validated (fst (validation client l)) `prefix_of` l.
Proof.
  induction l as [|v l IH]; [apply prefix_nil|].
  cbn [validation].
  destruct (Validate client v) as [err|].
  - destruct (errors.Is_ErrorSkipValidation err).
    + destruct (validation client l) as [evs ok]. cbn in *.
      now apply prefix_cons.
    + cbn. apply prefix_cons, prefix_nil.
  - destruct (validation client l) as [evs ok]. cbn in *.
    now apply prefix_cons.
Qed.

(** A step is validated, as it stands in the list, once every step before
    it is tolerated. *)
Lemma validation_reaches l i v :
  l !! i = Some v ->
  forallb (tolerated client) (take i l) = true ->
  validated (fst (validation client l)) !! i = Some v.
Proof.
  intros Hi Hpre.
  assert (Hlt : (i < length l)%nat) by (eapply lookup_lt_Some; eauto).
  rewrite <- (take_drop_middle l i v Hi).
  rewrite (validation_app _ _ Hpre). cbn [fst].
  rewrite validated_app.
  destruct (validation_tolerated _ Hpre) as (-> & _).
  rewrite lookup_app_r by (rewrite length_take; lia).
  replace (i - length (take i l))%nat with 0%nat by (rewrite length_take; lia).
  cbn [validation].
  destruct (Validate client v) as [err|].
  - destruct (errors.Is_ErrorSkipValidation err); [|reflexivity].
    destruct (validation client (drop (S i) l)); reflexivity.
  - destruct (validation client (drop (S i) l)); reflexivity.
Qed.

End Summaries.

End RegistryFacts.

(** ** One call of [Run] or [Parallel] *)

Module EntryFacts.

Import pipeline shipwright registry CounterFacts FrontFacts RegistryFacts.

(** Where a call into the client can sit in a log that starts with events
    of other kinds. *)
Lemma client_call_position V : forall tl before e after,
  forallb (fun e => negb (is_client_call e)) V = true ->
  V ++ tl = before ++ e :: after -> is_client_call e = true ->
  exists k, before = V ++ k /\ tl = k ++ e :: after.
Proof.
  induction V as [|x V IH]; intros tl before e after HV Heq He.
  - exists before. split; [reflexivity | exact Heq].
  - cbn [forallb] in HV. apply andb_prop in HV as [Hx HV].
    destruct before as [|b before].
    + cbn in Heq. injection Heq as -> _. rewrite He in Hx. discriminate.
    + cbn in Heq. injection Heq as -> Heq.
      destruct (IH _ _ _ _ HV Heq He) as (k & -> & ->).
      exists k. split; reflexivity.
Qed.

Section Entry.

Variable DefaultImage : string -> string.
Variable client : Client.

Lemma entry_ok mode s p arr :
  heap p !! s = Some arr ->
  let arr' := register_from DefaultImage (Version (sw p)) (n (sw p)) arr in
  entry DefaultImage client mode s p =
  ((if snd (validation client arr') then Returned tt else Exited 1),
   {| sw := {| n := counter (n (sw p)) (length arr); Version := Version (sw p) |};
      heap := <[s := arr']> (heap p);
      log := log p ++ fst (validation client arr')
               ++ (if snd (validation client arr') then [client_call mode arr'] else []) |}).
Proof. intros Hs. rewrite entry_is_submit. now apply submit_ok. Qed.

Lemma entry_events mode s p arr :
  heap p !! s = Some arr ->
  let arr' := register_from DefaultImage (Version (sw p)) (n (sw p)) arr in
  new_events (entry DefaultImage client mode s) p =
  fst (validation client arr')
    ++ (if snd (validation client arr') then [client_call mode arr'] else []).
Proof.
  intros Hs arr'. eapply new_events_of.
  - apply (entry_ok mode s p arr Hs).
  - reflexivity.
Qed.

Lemma handed_over_client_call mode l : handed_over [client_call mode l] = l.
Proof. destruct mode; cbn; apply app_nil_r. Qed.

Lemma is_client_call_client_call mode l : is_client_call (client_call mode l) = true.
Proof. now destruct mode. Qed.

Lemma validated_client_call mode l : validated [client_call mode l] = [].
Proof. now destruct mode. Qed.

Lemma warnings_client_call mode l : warnings [client_call mode l] = [].
Proof. now destruct mode. Qed.

Lemma fatals_client_call mode l : fatals [client_call mode l] = [].
Proof. now destruct mode. Qed.

(** Every step that [Validate] sees or that the client is handed is, at
    its index, the step of the slice as [initSteps] left it. *)
Lemma entry_observed mode s p arr i v :
  heap p !! s = Some arr ->
  let evs := new_events (entry DefaultImage client mode s) p in
  validated evs !! i = Some v \/ handed_over evs !! i = Some v ->
  register_from DefaultImage (Version (sw p)) (n (sw p)) arr !! i = Some v.
Proof.
  intros Hs evs. subst evs. rewrite (entry_events mode s p arr Hs).
  set (steps := register_from _ _ _ arr).
  rewrite validated_app, handed_over_app, validation_handed_over.
  pose proof (validation_validated_prefix client steps) as Hpre.
  rewrite validation_ok.
  destruct (forallb (tolerated client) steps) eqn:Hok.
  - rewrite validated_client_call, handed_over_client_call, app_nil_r.
    intros [H|H]; [|exact H].
    eapply prefix_lookup_Some; eauto.
  - cbn. rewrite app_nil_r. intros [H|H]; [|discriminate].
    eapply prefix_lookup_Some; eauto.
Qed.

(** A call is [initSteps] first; validation and the call into the client
    run from the process as [initSteps] left it. *)
Lemma entry_after_initSteps mode s p arr :
  heap p !! s = Some arr ->
  exists p1,
    initSteps DefaultImage s p = (Returned s, p1) /\
    entry DefaultImage client mode s p =
    (validateSteps client s ;; arr' ← contents s; emit (client_call mode arr')) p1.
Proof.
  intros Hs. eexists. split; [apply (initSteps_ok DefaultImage s p arr Hs)|].
  destruct mode; cbn [entry client_call]; unfold Run, Parallel;
    rewrite bind_apply, (initSteps_ok DefaultImage s p arr Hs); reflexivity.
Qed.

(** The slice after a call, whatever validation said. *)
Lemma entry_heap mode s p arr :
  heap p !! s = Some arr ->
  heap (snd (entry DefaultImage client mode s p)) !! s =
    Some (register_from DefaultImage (Version (sw p)) (n (sw p)) arr) /\
  n (sw (snd (entry DefaultImage client mode s p))) = counter (n (sw p)) (length arr).
Proof.
  intros Hs. rewrite (entry_ok mode s p arr Hs). cbn [snd heap sw n].
  split; [|reflexivity].
  apply list_lookup_insert_eq. eapply lookup_lt_Some; eauto.
Qed.

Lemma warnings_for_app a b :
  warnings_for client (a ++ b) = warnings_for client a ++ warnings_for client b.
Proof. apply flat_map_app. Qed.

Lemma warnings_for_elem l v err :
  v ∈ l -> Validate client v = Some err ->
  errors.Is_ErrorSkipValidation err = true ->
  formatError v err ∈ warnings_for client l.
Proof.
  intros Hin Hv He. apply list_elem_of_In. apply in_flat_map.
  exists v. split; [now apply list_elem_of_In|].
  rewrite Hv, He. now left.
Qed.

End Entry.

End EntryFacts.


(** ** A whole pipeline definition *)

Module ExecFacts.

Import pipeline shipwright registry CounterFacts FrontFacts RegistryFacts EntryFacts.

Section Exec.

Variable DefaultImage : string -> string.
Variable client : Client.

Lemma exec_stmt_ok st p :
  let arr' := register_from DefaultImage (Version (sw p)) (n (sw p)) (declared st) in
  exec_stmt DefaultImage client st p =
  ((if snd (validation client arr') then Returned tt else Exited 1),
   {| sw := {| n := counter (n (sw p)) (length (declared st));
               Version := Version (sw p) |};
      heap := <[length (heap p) := arr']> (heap p ++ [declared st]);
      log := log p ++ fst (validation client arr')
               ++ (if snd (validation client arr')
                   then [client_call (stmt_mode st) arr'] else []) |}).
Proof.
  intros arr'.
  assert (Hs : heap {| sw := sw p; heap := heap p ++ [declared st]; log := log p |}
                 !! length (heap p) = Some (declared st))
    by (cbn [heap]; now apply list_lookup_middle).
  pose proof (entry_ok DefaultImage client (stmt_mode st) _ _ _ Hs) as H.
  cbn [sw heap log] in H.
  destruct st as [steps|steps]; cbn [exec_stmt declared stmt_mode] in *;
    rewrite bind_apply; cbn [make]; exact H.
Qed.

(** The steps handed to the client in the course of a definition are an
    initial part of the declared steps as registered from the counter the
    definition starts with; all of them when the definition returns. *)
Lemma exec_summary prog : forall p,
  exists evs,
    log (snd (exec DefaultImage client prog p)) = log p ++ evs /\
    handed_over evs `prefix_of`
      register_from DefaultImage (Version (sw p)) (n (sw p)) (flat_map declared prog) /\
    (fst (exec DefaultImage client prog p) = Returned tt ->
     handed_over evs =
       register_from DefaultImage (Version (sw p)) (n (sw p)) (flat_map declared prog)).
Proof.
  induction prog as [|st prog IH]; intros p.
  - exists []. cbn. rewrite app_nil_r. repeat split; reflexivity.
  - cbn [exec flat_map]. rewrite bind_apply, exec_stmt_ok.
    rewrite register_from_app.
    set (arr' := register_from DefaultImage (Version (sw p)) (n (sw p)) (declared st)).
    pose proof (validation_handed_over client arr') as Hnone.
    destruct (validation client arr') as [V [|]]; cbn [fst snd] in *.
    + match goal with |- context [exec _ _ prog ?q] => destruct (IH q) as (evs & Hlog & Hpre & Hall) end.
      cbn [sw log n Version] in *.
      exists (V ++ [client_call (stmt_mode st) arr'] ++ evs).
      split; [rewrite Hlog; now rewrite <- !app_assoc|].
      rewrite !handed_over_app, Hnone, handed_over_client_call. cbn [app].
      split.
      * now apply prefix_app.
      * intros Hret. now rewrite (Hall Hret).
    + exists V. cbn [snd log fst]. rewrite app_nil_r.
      split; [reflexivity|]. rewrite Hnone.
      split; [apply prefix_nil | discriminate].
Qed.

Lemma exec_events prog p :
  exists evs,
    new_events (exec DefaultImage client prog) p = evs /\
    handed_over evs `prefix_of`
      register_from DefaultImage (Version (sw p)) (n (sw p)) (flat_map declared prog) /\
    (fst (exec DefaultImage client prog p) = Returned tt ->
     handed_over evs =
       register_from DefaultImage (Version (sw p)) (n (sw p)) (flat_map declared prog)).
Proof.
  destruct (exec_summary prog p) as (evs & Hlog & H).
  exists evs. split; [|exact H].
  unfold new_events. rewrite Hlog. apply drop_app_length.
Qed.

End Exec.

(** The [N]th step handed over is the [N]th declared step, registered
    with the [N]th value of the counter. *)
Lemma exec_handed_nth DefaultImage client prog p N v :
  handed_over (new_events (exec DefaultImage client prog) p) !! N = Some v ->
  exists st, flat_map declared prog !! N = Some st /\
    v = registered DefaultImage (Version (sw p)) (counter (n (sw p)) N) st.
Proof.
  intros Hv.
  destruct (exec_events DefaultImage client prog p) as (evs & Hevs & Hpre & _).
  rewrite Hevs in Hv.
  pose proof (prefix_lookup_Some _ _ _ _ Hv Hpre) as Hreg.
  rewrite register_from_lookup in Hreg.
  destruct (flat_map declared prog !! N) as [st|]; [|discriminate].
  cbn in Hreg. injection Hreg as <-. eauto.
Qed.

End ExecFacts.


(** ** Package [docker] *)

Module DockerFacts.

Import docker.

Lemma describe_runs_snoc w c :
  describe_runs (w ++ [c]) = (describe_runs w + if is_describe c then 1 else 0)%nat.
Proof.
  unfold describe_runs. rewrite List.filter_app, length_app. cbn.
  now destruct (is_describe c).
Qed.

Lemma pushes_snoc w c :
  pushes (w ++ [c]) = (pushes w + if is_push c then 1 else 0)%nat.
Proof.
  unfold pushes. rewrite List.filter_app, length_app. cbn.
  now destruct (is_push c).
Qed.

Section Docker.

Variable env : sys.Oracle.
Variable TrimSpace : string -> string.
Variable DefaultImage : string -> string.
Variable SubImage : string -> string -> string.
Variable DefaultRegistry : string.
Variable auth_token_key : string.

(** What [version] does to the history, by the reply to the first
    command. *)
Lemma version_world w :
  snd (version env TrimSpace w) =
  match snd (env w git_config) with
  | Some _ => w ++ [git_config]
  | None => (w ++ [git_config]) ++ [git_describe]
  end.
Proof.
  unfold version, sys.call.
  destruct (env w git_config) as [out [e|]]; cbn [snd]; [reflexivity|].
  destruct (env (w ++ [git_config]) git_describe) as [v [e|]]; reflexivity.
Qed.

Lemma version_describe_runs w :
  describe_runs (snd (version env TrimSpace w)) =
  match snd (env w git_config) with
  | Some _ => describe_runs w
  | None => S (describe_runs w)
  end.
Proof.
  rewrite version_world.
  destruct (snd (env w git_config)); rewrite !describe_runs_snoc; cbn; lia.
Qed.

Lemma version_pushes w : pushes (snd (version env TrimSpace w)) = pushes w.
Proof.
  rewrite version_world.
  destruct (snd (env w git_config)); rewrite !pushes_snoc; cbn; lia.
Qed.

Lemma Tag_world i w :
  snd (Tag env TrimSpace DefaultImage SubImage i w) = snd (version env TrimSpace w).
Proof.
  unfold Tag. destruct (version env TrimSpace w) as [[v [e|]] w1]; reflexivity.
Qed.

Lemma Tag_error i w :
  snd (fst (Tag env TrimSpace DefaultImage SubImage i w)) =
  snd (fst (version env TrimSpace w)).
Proof.
  unfold Tag. destruct (version env TrimSpace w) as [[v [e|]] w1]; reflexivity.
Qed.

(** A version that was found cost one run of each command. *)
Lemma version_found w :
  snd (fst (version env TrimSpace w)) = None ->
  snd (env w git_config) = None.
Proof.
  unfold version, sys.call.
  destruct (env w git_config) as [out [e|]]; cbn; [discriminate|].
  reflexivity.
Qed.

(** [BuildStep]'s action, when every command succeeds: two lookups, the
    log line and the build. *)
Lemma BuildStep_action_world i opts w :
  (forall w' c, snd (env w' c) = None) ->
  snd (BuildStep_action env TrimSpace DefaultImage SubImage i opts w) =
  ((((((w ++ [git_config]) ++ [git_describe]) ++ [git_config]) ++ [git_describe])
      ++ [sys.Infoln ["Building"; Dockerfile i; "with tag";
                      fst (fst (Tag env TrimSpace DefaultImage SubImage i w))]])
     ++ [sys.DockerBuild [fst (fst (Tag env TrimSpace DefaultImage SubImage i w))]
           (Dockerfile i) (Context i)
           [("VERSION",
             fst (fst (version env TrimSpace
                         (snd (Tag env TrimSpace DefaultImage SubImage i w)))))]]).
Proof.
  intros Hok. unfold BuildStep_action.
  pose proof (Tag_world i w) as Hw. pose proof (Tag_error i w) as He.
  pose proof (version_world w) as Hv. rewrite Hok in Hv.
  destruct (Tag env TrimSpace DefaultImage SubImage i w) as [[tag terr] w1].
  cbn [fst snd] in *.
  assert (Hterr : terr = None).
  { rewrite He. unfold version, sys.call.
    pose proof (Hok w git_config) as H1.
    destruct (env w git_config) as [o1 e1]. cbn in H1. subst e1.
    pose proof (Hok (w ++ [git_config]) git_describe) as H2.
    destruct (env (w ++ [git_config]) git_describe) as [o2 e2].
    cbn in H2. now subst e2. }
  subst terr.
  pose proof (version_world w1) as Hv1. rewrite Hok in Hv1.
  assert (Hverr : snd (fst (version env TrimSpace w1)) = None).
  { unfold version, sys.call.
    pose proof (Hok w1 git_config) as H1.
    destruct (env w1 git_config) as [o1 e1]. cbn in H1. subst e1.
    pose proof (Hok (w1 ++ [git_config]) git_describe) as H2.
    destruct (env (w1 ++ [git_config]) git_describe) as [o2 e2].
    cbn in H2. now subst e2. }
  destruct (version env TrimSpace w1) as [[v verr] w2].
  cbn [fst snd] in *. subst verr. unfold sys.call.
  match goal with |- context [env ?h (sys.DockerBuild ?a ?b ?c ?d)] =>
    destruct (env h (sys.DockerBuild a b c d)) as [o4 e4] end.
  cbn [snd]. rewrite Hv1, Hw, Hv. now rewrite Hterr.
Qed.

(** What [PushStep]'s action does, by the outcome of [Tag] and of the
    lookup of the token. *)
Lemma PushStep_action_cases i opts w :
  let tagged := Tag env TrimSpace DefaultImage SubImage i w in
  let arg := ArgumentDockerAuthToken auth_token_key in
  let push auth := sys.DockerPush (fst (fst tagged)) DefaultRegistry auth in
  PushStep_action env TrimSpace DefaultImage SubImage DefaultRegistry
    auth_token_key i opts w =
  match snd (fst tagged) with
  | Some e => (Some e, snd tagged)
  | None =>
      match pipeline.State_GetString opts arg with
      | inr e => (Some e, snd tagged)
      | inl auth =>
          (snd (env (snd tagged ++ [sys.Infoln ["Pushing"; fst (fst tagged)]])
                  (push auth)),
           (snd tagged ++ [sys.Infoln ["Pushing"; fst (fst tagged)]])
             ++ [push auth])
      end
  end.
Proof.
  intros tagged arg push. subst tagged arg push. unfold PushStep_action.
  destruct (Tag env TrimSpace DefaultImage SubImage i w) as [[tag [e|]] w1];
    cbn [fst snd]; [reflexivity|].
  destruct (pipeline.State_GetString opts (ArgumentDockerAuthToken auth_token_key))
    as [auth|e]; [|reflexivity].
  unfold sys.call.
  match goal with |- context [env ?h (sys.DockerPush ?a ?b ?c)] =>
    destruct (env h (sys.DockerPush a b c)) as [o4 e4] end.
  reflexivity.
Qed.

End Docker.

End DockerFacts.

(** ** The signal watcher *)

Module WatcherFacts.

Import watcher.

(** No move touches the spawned processes or ends the process. *)
Lemma move_leaves_children m r :
  in_flight (move m r) = in_flight r /\ exited (move m r) = exited r.
Proof.
  destruct m as [s|]; cbn [move].
  - unfold deliver. destruct (decide _); split; reflexivity.
  - unfold goroutine. destruct (waiting r), (sigs r); split; reflexivity.
Qed.

Lemma run_leaves_children ms : forall r,
  in_flight (run ms r) = in_flight r /\ exited (run ms r) = exited r.
Proof.
  induction ms as [|m ms IH]; intros r; [split; reflexivity|].
  cbn [run fold_left]. fold (run ms (move m r)).
  destruct (IH (move m r)) as [-> ->]. apply move_leaves_children.
Qed.

Lemma move_printed_once out m r : printed_once out r -> printed_once out (move m r).
Proof.
  intros H. destruct m as [s|]; cbn [move].
  - unfold deliver. now destruct (decide _).
  - unfold goroutine. destruct H as [[Hw Ho]|[Hw Ho]]; rewrite Hw.
    + destruct (sigs r); [left; now split|]. right. cbn. now rewrite Ho.
    + right. now split.
Qed.

Lemma run_printed_once out ms : forall r,
  printed_once out r -> printed_once out (run ms r).
Proof.
  induction ms as [|m ms IH]; intros r H; [exact H|].
  cbn [run fold_left]. fold (run ms (move m r)).
  now apply IH, move_printed_once.
Qed.

End WatcherFacts.

(** ** The manifest *)

Module DroneFacts.

Import drone.

(** Cutting the [k]th list out of a concatenation. *)
Lemma concat_slice {A} (L : list (list A)) : forall k x,
  L !! k = Some x ->
  take (length x) (drop (length (concat (take k L))) (concat L)) = x.
Proof.
  induction L as [|y L IH]; intros k x Hk; [discriminate|].
  destruct k as [|k].
  - injection Hk as ->. change (take (length x) (x ++ concat L) = x).
    apply take_app_length.
  - cbn [take concat]. rewrite length_app, drop_app_add'; [|reflexivity].
    apply IH. exact Hk.
Qed.

Section Manifest.

Variable Slugify : string -> string.

Lemma record_names c ss :
  map name (map (record Slugify c) ss) = names Slugify ss.
Proof. unfold names. rewrite map_map. reflexivity. Qed.

Lemma fold_stage stages : forall c,
  steps (fold_left (stage Slugify) stages c) =
  steps c ++ concat (by_stage Slugify (path c) (previous c) stages).
Proof.
  induction stages as [|ss stages IH]; intros c.
  - cbn. now rewrite app_nil_r.
  - cbn [fold_left by_stage concat]. rewrite IH. cbn [stage steps path previous].
    rewrite record_names, <- app_assoc. reflexivity.
Qed.

Lemma emit_by_stage path stages :
  Done (emit Slugify path stages) = concat (by_stage Slugify path [] stages).
Proof. unfold Done, emit. now rewrite fold_stage. Qed.

Lemma by_stage_length path stages : forall prev,
  map length (by_stage Slugify path prev stages) = map length stages.
Proof.
  induction stages as [|ss stages IH]; intros prev; [reflexivity|].
  cbn [by_stage map]. now rewrite length_map, IH.
Qed.

Lemma concat_length_by {A B} (L : list (list A)) (M : list (list B)) :
  map length L = map length M -> length (concat L) = length (concat M).
Proof.
  revert M. induction L as [|x L IH]; intros [|y M] H; try discriminate; [reflexivity|].
  cbn in *. injection H as Hxy H. rewrite !length_app, Hxy. f_equal. now apply IH.
Qed.

Lemma by_stage_take path stages : forall prev k,
  map length (take k (by_stage Slugify path prev stages)) = map length (take k stages).
Proof.
  intros prev k. rewrite <- !firstn_map. now rewrite by_stage_length.
Qed.

(** Stage [k] of the manifest, with the dependency list it was recorded
    with: nothing for the first stage, the names of the stage before for
    the others. *)
Lemma by_stage_lookup path stages : forall prev k ss,
  stages !! k = Some ss ->
  by_stage Slugify path prev stages !! k =
  Some (map (record Slugify
               {| path := path; steps := [];
                  previous := match k with
                              | O => prev
                              | S j => names Slugify (default [] (stages !! j))
                              end |}) ss).
Proof.
  induction stages as [|s0 stages IH]; intros prev k ss Hk; [discriminate|].
  destruct k as [|k].
  - injection Hk as ->. reflexivity.
  - cbn [by_stage]. rewrite lookup_cons. rewrite (IH _ _ _ Hk).
    destruct k as [|k]; reflexivity.
Qed.

Lemma stage_records_emit path stages k ss :
  stages !! k = Some ss ->
  stage_records stages (Done (emit Slugify path stages)) k =
  map (record Slugify
         {| path := path; steps := [];
            previous := match k with
                        | O => []
                        | S j => names Slugify (default [] (stages !! j))
                        end |}) ss.
Proof.
  intros Hk. unfold stage_records, offset. rewrite Hk. cbn [default].
  rewrite emit_by_stage.
  pose proof (by_stage_lookup path stages [] k ss Hk) as Hb.
  rewrite <- (concat_slice _ _ _ Hb).
  rewrite length_map.
  f_equal. f_equal. apply concat_length_by. symmetry. apply by_stage_take.
Qed.

End Manifest.

End DroneFacts.

(** ** The model on concrete inputs *)

Module Examples.

Import pipeline shipwright registry.

(** Past the largest [int] the counter wraps around. *)
Example counter_wraps : GoInt.add GoInt.max_int 1 = GoInt.min_int.
Proof. reflexivity. Qed.

(** The pipeline of [demo/basic/build.go] under a client that accepts
    every step: five steps, numbered from the counter in the order of
    declaration, each with the default image. *)
Example basic_serials :
  map (fun v => (Serial v, Name v, Image v))
    (handed_over (new_events (exec demo.DefaultImage demo.accepting demo.basic)
                    demo.fresh))
  = [ (0, "install frontend dependencies", "grafana/shipwright:latest");
      (1, "install backend dependencies", "grafana/shipwright:latest");
      (2, "write .version file", "grafana/shipwright:latest");
      (3, "compile backend", "grafana/shipwright:latest");
      (4, "compile frontend", "grafana/shipwright:latest") ].
Proof. reflexivity. Qed.

(** A skippable error is logged and the step stays in the call. *)
Example warning_keeps_the_step :
  let run := entry demo.DefaultImage demo.warns_unnamed Sequential 0%nat in
  fst (run demo.holding) = Returned tt /\
  warnings (new_events run demo.holding)
  = ["[name: unnamed-step-8, id: 8] step has no name: skipping step validation"] /\
  map Serial (handed_over (new_events run demo.holding)) = [7; 8; 9].
Proof. repeat split. Qed.

(** A fatal error ends the process: the step after it is not validated
    and the client is not called. *)
Example fatal_ends_the_process :
  let run := entry demo.DefaultImage demo.refuses_unnamed Sequential 0%nat in
  fst (run demo.holding) = Exited 1 /\
  map Serial (validated (new_events run demo.holding)) = [7; 8] /\
  handed_over (new_events run demo.holding) = [].
Proof. repeat split. Qed.

(** The slice the caller holds is the one that was written. *)
Example slice_written_in_place :
  map (fun v => (Serial v, Image v))
    (default [] (heap (snd (initSteps demo.DefaultImage 0%nat demo.holding)) !! 0%nat))
  = [ (7, "grafana/shipwright:latest"); (8, "golang:1.19");
      (9, "grafana/shipwright:latest") ].
Proof. reflexivity. Qed.

(** The manifest of the package comment of [drone]. *)
Example package_comment_manifest :
  drone.Done (drone.emit demo.Slugify "./demo/basic" demo.commented)
  = [ {| drone.name := "clone"; drone.image := "grafana/shipwright:latest";
         drone.commands := ["shipwright -step=0 ./demo/basic"];
         drone.depends_on := [] |};
      {| drone.name := "install-frontend-dependencies";
         drone.image := "grafana/shipwright:latest";
         drone.commands := ["shipwright -step=1 ./demo/basic"];
         drone.depends_on := ["clone"] |};
      {| drone.name := "install-backend-dependencies";
         drone.image := "grafana/shipwright:latest";
         drone.commands := ["shipwright -step=2 ./demo/basic"];
         drone.depends_on := ["clone"] |};
      {| drone.name := "write-version-file";
         drone.image := "grafana/shipwright:latest";
         drone.commands := ["shipwright -step=3 ./demo/basic"];
         drone.depends_on :=
           ["install-frontend-dependencies"; "install-backend-dependencies"] |};
      {| drone.name := "compile-backend";
         drone.image := "grafana/shipwright:latest";
         drone.commands := ["shipwright -step=4 ./demo/basic"];
         drone.depends_on := ["write-version-file"] |};
      {| drone.name := "compile-frontend";
         drone.image := "grafana/shipwright:latest";
         drone.commands := ["shipwright -step=5 ./demo/basic"];
         drone.depends_on := ["compile-backend"] |} ].
Proof. reflexivity. Qed.

(** The version is trimmed; the tag of the root image and of a derived
    image. *)
Example tags :
  fst (docker.Tag demo.git_works demo.TrimSpace demo.DefaultImage demo.SubImage
         docker.ScribeImage [])
  = ("grafana/shipwright:v0.9.2-3-g1a2b3c4", None) /\
  map (fun i => fst (fst (docker.Tag demo.git_works demo.TrimSpace
                            demo.DefaultImage demo.SubImage i [])))
    docker.Images
  = [ "grafana/shipwright:git-v0.9.2-3-g1a2b3c4";
      "grafana/shipwright:go-v0.9.2-3-g1a2b3c4";
      "grafana/shipwright:node-v0.9.2-3-g1a2b3c4";
      "grafana/shipwright:docker-v0.9.2-3-g1a2b3c4" ].
Proof. split; reflexivity. Qed.

(** A push with the token in the state. *)
Example push_with_token :
  docker.PushStep_action demo.git_works demo.TrimSpace demo.DefaultImage
    demo.SubImage demo.DefaultRegistry demo.auth_token_key
    docker.ScribeImage demo.with_token []
  = (None,
     [ docker.git_config; docker.git_describe;
       sys.Infoln ["Pushing"; "grafana/shipwright:v0.9.2-3-g1a2b3c4"];
       sys.DockerPush "grafana/shipwright:v0.9.2-3-g1a2b3c4"
         "https://index.docker.io/v1/" "s3cr3t" ]).
Proof. reflexivity. Qed.

End Examples.

(** ** Runs of whole definitions *)

Module ProgramFacts.

Import pipeline shipwright registry program.
Import GoIntFacts CounterFacts FrontFacts RegistryFacts EntryFacts ExecFacts.

Section Program.

Variable DefaultImage : string -> string.
Variable client : Client.

(** [exec] does what [trace] says, from any process. *)
Lemma exec_trace prog : forall p,
  exists p',
    exec DefaultImage client prog p =
    ((if snd (trace DefaultImage client (Version (sw p)) (n (sw p)) prog)
      then Returned tt else Exited 1), p') /\
    log p' = log p ++ fst (trace DefaultImage client (Version (sw p)) (n (sw p)) prog) /\
    Version (sw p') = Version (sw p) /\
    (snd (trace DefaultImage client (Version (sw p)) (n (sw p)) prog) = true ->
     n (sw p') = counter (n (sw p)) (length (flat_map declared prog))).
Proof.
  induction prog as [|st prog IH]; intros p.
  - exists p. cbn. rewrite app_nil_r. repeat split.
  - cbn [exec trace flat_map]. rewrite bind_apply, exec_stmt_ok.
    set (steps := register_from DefaultImage (Version (sw p)) (n (sw p)) (declared st)).
    destruct (validation client steps) as [V [|]]; cbn [fst snd].
    + match goal with |- context [exec _ _ prog ?q] =>
        destruct (IH q) as (p' & Hrun & Hlog & Hver & Hn) end.
      cbn [sw log n Version] in *.
      destruct (trace DefaultImage client (Version (sw p))
                  (counter (n (sw p)) (length (declared st))) prog) as [more ok'].
      cbn [fst snd] in *.
      exists p'. split; [exact Hrun|]. split.
      { rewrite Hlog. now rewrite <- !app_assoc. }
      split; [exact Hver|].
      intros Hok. rewrite (Hn Hok), length_app, counter_plus. reflexivity.
    + eexists. split; [reflexivity|]. cbn [log sw Version].
      rewrite app_nil_r. repeat split. discriminate.
Qed.

Lemma exec_new_events prog p :
  new_events (exec DefaultImage client prog) p =
  fst (trace DefaultImage client (Version (sw p)) (n (sw p)) prog).
Proof.
  destruct (exec_trace prog p) as (p' & Hrun & Hlog & _).
  eapply new_events_of; eauto.
Qed.

Lemma exec_outcome prog p :
  fst (exec DefaultImage client prog p) =
  if snd (trace DefaultImage client (Version (sw p)) (n (sw p)) prog)
  then Returned tt else Exited 1.
Proof. destruct (exec_trace prog p) as (p' & -> & _). reflexivity. Qed.

(** A definition runs to its end exactly when every declared step, as
    registered, is tolerated. *)
Lemma trace_ok ver prog : forall k,
  snd (trace DefaultImage client ver k prog) =
  forallb (tolerated client)
    (register_from DefaultImage ver k (flat_map declared prog)).
Proof.
  induction prog as [|st prog IH]; intros k; [reflexivity|].
  cbn [trace flat_map]. rewrite register_from_app, forallb_app.
  rewrite <- validation_ok, <- IH.
  destruct (validation client _) as [V [|]]; cbn [snd]; [|reflexivity].
  now destruct (trace DefaultImage client ver _ prog).
Qed.

(** What a run that reaches its end has validated, warned about and
    handed over. *)
Lemma trace_complete ver prog : forall k,
  snd (trace DefaultImage client ver k prog) = true ->
  let all := register_from DefaultImage ver k (flat_map declared prog) in
  validated (fst (trace DefaultImage client ver k prog)) = all /\
  handed_over (fst (trace DefaultImage client ver k prog)) = all /\
  warnings (fst (trace DefaultImage client ver k prog)) = warnings_for client all /\
  fatals (fst (trace DefaultImage client ver k prog)) = [].
Proof.
  induction prog as [|st prog IH]; intros k Hok all; [repeat split|].
  subst all. cbn [trace flat_map] in *. rewrite register_from_app.
  set (steps := register_from DefaultImage ver k (declared st)) in *.
  pose proof (validation_ok client steps) as Hval.
  pose proof (validation_handed_over client steps) as Hnone.
  destruct (validation client steps) as [V [|]] eqn:HV; cbn [fst snd] in *;
    [|discriminate].
  destruct (validation_tolerated client steps (eq_sym Hval)) as (Hv & Hw & Hf).
  rewrite HV in Hv, Hw, Hf. cbn [fst] in Hv, Hw, Hf.
  specialize (IH (counter k (length (declared st)))).
  destruct (trace DefaultImage client ver (counter k (length (declared st))) prog)
    as [more ok']. cbn [fst snd] in *.
  destruct (IH Hok) as (IHv & IHh & IHw & IHf).
  change (V ++ client_call (stmt_mode st) steps :: more)
    with (V ++ [client_call (stmt_mode st) steps] ++ more).
  rewrite !validated_app, !handed_over_app, !warnings_app, !fatals_app.
  rewrite validated_client_call, handed_over_client_call,
    warnings_client_call, fatals_client_call.
  rewrite Hv, Hnone, Hw, Hf, IHv, IHh, IHw, IHf, warnings_for_app.
  repeat split.
Qed.

(** A declared step is validated, as registered, once every step declared
    before it is tolerated. *)
Lemma trace_reaches ver prog : forall k N v,
  register_from DefaultImage ver k (flat_map declared prog) !! N = Some v ->
  forallb (tolerated client)
    (take N (register_from DefaultImage ver k (flat_map declared prog))) = true ->
  validated (fst (trace DefaultImage client ver k prog)) !! N = Some v.
Proof.
  induction prog as [|st prog IH]; intros k N v HN Hpre; [discriminate|].
  cbn [trace flat_map] in *. rewrite register_from_app in HN, Hpre.
  set (steps := register_from DefaultImage ver k (declared st)) in *.
  assert (Hlen : length steps = length (declared st))
    by apply register_from_length.
  destruct (decide (N < length steps)%nat) as [Hlt|Hge].
  - rewrite lookup_app_l in HN by exact Hlt.
    rewrite take_app_le in Hpre by lia.
    pose proof (validation_reaches client steps N v HN Hpre) as Hv.
    destruct (validation client steps) as [V [|]]; cbn [fst] in Hv.
    + destruct (trace DefaultImage client ver _ prog) as [more ok'].
      cbn [fst]. rewrite validated_app. now apply lookup_app_l_Some.
    + exact Hv.
  - rewrite lookup_app_r in HN by lia.
    rewrite take_app_ge in Hpre by lia.
    rewrite forallb_app in Hpre. apply andb_prop in Hpre as [Hsteps Hrest].
    pose proof (validation_ok client steps) as Hok. rewrite Hsteps in Hok.
    destruct (validation_tolerated client steps Hsteps) as (Hval & _).
    destruct (validation client steps) as [V ok]. cbn [fst snd] in *. subst ok.
    specialize (IH (counter k (length (declared st))) (N - length steps)%nat v).
    rewrite <- Hlen in IH, HN, Hrest |- *. specialize (IH HN Hrest).
    destruct (trace DefaultImage client ver (counter k (length steps)) prog)
      as [more ok'].
    cbn [fst] in *.
    change (V ++ client_call (stmt_mode st) steps :: more)
      with (V ++ [client_call (stmt_mode st) steps] ++ more).
    rewrite !validated_app, validated_client_call, Hval. cbn [app].
    rewrite lookup_app_r by lia. exact IH.
Qed.

(** The mode of the calls shows in the calls into the client and nowhere
    else. *)
Lemma trace_modes ver prog : forall prog' k,
  map declared prog = map declared prog' ->
  let t := trace DefaultImage client ver k prog in
  let t' := trace DefaultImage client ver k prog' in
  snd t = snd t' /\
  validated (fst t) = validated (fst t') /\
  handed_over (fst t) = handed_over (fst t') /\
  warnings (fst t) = warnings (fst t') /\
  fatals (fst t) = fatals (fst t').
Proof.
  induction prog as [|st prog IH]; intros [|st' prog'] k Hd; try discriminate;
    [repeat split|].
  cbn [map] in Hd. injection Hd as Hst Hd.
  cbn [trace]. rewrite <- Hst.
  set (steps := register_from DefaultImage ver k (declared st)).
  destruct (validation client steps) as [V [|]]; cbn [fst snd]; [|repeat split].
  specialize (IH prog' (counter k (length (declared st))) Hd).
  cbn zeta in IH.
  destruct (trace DefaultImage client ver (counter k (length (declared st))) prog)
    as [more ok].
  destruct (trace DefaultImage client ver (counter k (length (declared st))) prog')
    as [more' ok'].
  cbn [fst snd] in *. destruct IH as (-> & Hv & Hh & Hw & Hf).
  change (V ++ client_call (stmt_mode st) steps :: more)
    with (V ++ [client_call (stmt_mode st) steps] ++ more).
  change (V ++ client_call (stmt_mode st') steps :: more')
    with (V ++ [client_call (stmt_mode st') steps] ++ more').
  rewrite !validated_app, !handed_over_app, !warnings_app, !fatals_app.
  rewrite !validated_client_call, !handed_over_client_call,
    !warnings_client_call, !fatals_client_call.
  rewrite Hv, Hh, Hw, Hf. repeat split.
Qed.

End Program.

End ProgramFacts.

(** ** More on the counter and on [wrap] *)

Module UniqueFacts.

Import registry GoIntFacts CounterFacts.

Lemma counter_in_range k N :
  GoInt.in_range k -> counter k N = GoInt.wrap (k + Z.of_nat N).
Proof.
  intros Hk. destruct N as [|N]; [|apply counter_wrap].
  cbn [counter Nat.iter Z.of_nat]. rewrite Z.add_0_r. symmetry.
  now apply wrap_small.
Qed.

(** Two sums that wrap to the same value differ by a multiple of the
    size of the range. *)
Lemma wrap_eq_close a b :
  GoInt.wrap a = GoInt.wrap b -> Z.abs (a - b) < 2 ^ 64 -> a = b.
Proof.
  unfold GoInt.wrap, GoInt.min_int. intros H Hclose.
  assert (Hm : (a - - 2 ^ 63) mod 2 ^ 64 = (b - - 2 ^ 63) mod 2 ^ 64) by lia.
  pose proof (Z.div_mod (a - - 2 ^ 63) (2 ^ 64) ltac:(lia)) as Ha.
  pose proof (Z.div_mod (b - - 2 ^ 63) (2 ^ 64) ltac:(lia)) as Hb.
  rewrite Hm in Ha.
  assert (Hq : (a - - 2 ^ 63) / 2 ^ 64 = (b - - 2 ^ 63) / 2 ^ 64) by nia.
  rewrite Hq in Ha. lia.
Qed.

Lemma counter_inj k N M :
  GoInt.in_range k ->
  Z.of_nat N < 2 ^ 64 -> Z.of_nat M < 2 ^ 64 ->
  counter k N = counter k M -> N = M.
Proof.
  intros Hk HN HM H. rewrite !counter_in_range in H by exact Hk.
  apply wrap_eq_close in H; lia.
Qed.

End UniqueFacts.

(** ** Decimal numbers in a report *)

Module TextFacts.

Import text.

Lemma app_assoc_string (a b c : string) : (a +:+ b) +:+ c = a +:+ (b +:+ c).
Proof.
  induction a as [|x a IH]; [reflexivity|].
  change (String x ((a +:+ b) +:+ c) = String x (a +:+ (b +:+ c))).
  now rewrite IH.
Qed.

Lemma pretty_N_char_no_comma x : Ascii.eqb (pretty_N_char x) ","%char = false.
Proof. unfold pretty_N_char. repeat case_match; reflexivity. Qed.

Lemma pretty_N_go_no_comma x : forall s,
  has_comma s = false -> has_comma (pretty_N_go x s) = false.
Proof.
  induction (N.lt_wf_0 x) as [x _ IH]; intros s Hs.
  assert (x = 0 \/ 0 < x)%N as [->|Hpos] by lia.
  - now rewrite pretty_N_go_0.
  - rewrite pretty_N_go_step by exact Hpos. apply IH.
    + now apply N.div_lt.
    + cbn [has_comma]. now rewrite pretty_N_char_no_comma.
Qed.

Lemma pretty_N_no_comma (x : N) : has_comma (pretty x) = false.
Proof.
  unfold pretty, pretty_N. destruct (decide (x = 0%N)); [reflexivity|].
  now apply pretty_N_go_no_comma.
Qed.

(** A decimal number, signed or not, holds no comma. *)
Lemma pretty_Z_no_comma (z : Z) : has_comma (pretty z) = false.
Proof.
  destruct z as [|x|x]; [reflexivity| |].
  - apply (pretty_N_no_comma (N.pos x)).
  - change (pretty (Z.neg x)) with ("-" +:+ pretty (N.pos x)).
    cbn. apply (pretty_N_no_comma (N.pos x)).
Qed.

(** Two texts without a comma that are followed by one. *)
Lemma split_at_comma s1 : forall s2 r1 r2,
  has_comma s1 = false -> has_comma s2 = false ->
  s1 +:+ String ","%char r1 = s2 +:+ String ","%char r2 ->
  s1 = s2 /\ r1 = r2.
Proof.
  induction s1 as [|c s1 IH]; intros [|d s2] r1 r2 H1 H2 Heq; cbn in *.
  - injection Heq as ->. now split.
  - injection Heq as <- _. now rewrite Ascii.eqb_refl in H2.
  - injection Heq as -> _. now rewrite Ascii.eqb_refl in H1.
  - injection Heq as -> Heq.
    destruct (Ascii.eqb d ","%char); [discriminate|].
    destruct (IH _ _ _ H1 H2 Heq) as [-> ->]. now split.
Qed.

End TextFacts.

(** ** More on package [docker] *)

Module DockerMoreFacts.

Import docker history DockerFacts.

Lemma builds_snoc w c :
  builds (w ++ [c]) = (builds w + if is_build c then 1 else 0)%nat.
Proof.
  unfold builds. rewrite List.filter_app, length_app. cbn.
  now destruct (is_build c).
Qed.

Section Docker.

Variable env : sys.Oracle.
Variable TrimSpace : string -> string.
Variable DefaultImage : string -> string.
Variable SubImage : string -> string -> string.
Variable DefaultRegistry : string.
Variable auth_token_key : string.

(** [version], by the replies to its two commands. *)
Lemma version_cases w :
  version env TrimSpace w =
  match snd (env w git_config) with
  | Some e =>
      (("", Some (errors.Errorf
           ("running command 'git config --global --add safe.directory *' resulted in error '"
            +:+ errors.Error e +:+ "'. Output: '" +:+ fst (env w git_config) +:+ "'") e)),
       w ++ [git_config])
  | None =>
      match snd (env (w ++ [git_config]) git_describe) with
      | Some e =>
          (("", Some (errors.Errorf
               ("running command 'git describe --tags --dirty --always' resulted in the error '"
                +:+ errors.Error e +:+ "'. Output: '"
                +:+ fst (env (w ++ [git_config]) git_describe) +:+ "'") e)),
           (w ++ [git_config]) ++ [git_describe])
      | None =>
          ((TrimSpace (fst (env (w ++ [git_config]) git_describe)), None),
           (w ++ [git_config]) ++ [git_describe])
      end
  end.
Proof.
  unfold version, sys.call.
  destruct (env w git_config) as [out [e|]]; cbn [fst snd]; [reflexivity|].
  destruct (env (w ++ [git_config]) git_describe) as [v [e|]]; reflexivity.
Qed.

Lemma version_builds w : builds (snd (version env TrimSpace w)) = builds w.
Proof.
  rewrite version_world.
  destruct (snd (env w git_config)); rewrite !builds_snoc; cbn; lia.
Qed.

(** What [BuildStep]'s action does, by the outcome of [Tag] and of the
    second lookup of the version. *)
Lemma BuildStep_action_cases i opts w :
  let tagged := Tag env TrimSpace DefaultImage SubImage i w in
  let looked := version env TrimSpace (snd tagged) in
  let line := sys.Infoln ["Building"; Dockerfile i; "with tag"; fst (fst tagged)] in
  let build := sys.DockerBuild [fst (fst tagged)] (Dockerfile i) (Context i)
                 [("VERSION", fst (fst looked))] in
  BuildStep_action env TrimSpace DefaultImage SubImage i opts w =
  match snd (fst tagged) with
  | Some e => (Some e, snd tagged)
  | None =>
      match snd (fst looked) with
      | Some e => (Some e, snd looked)
      | None =>
          (snd (env (snd looked ++ [line]) build), (snd looked ++ [line]) ++ [build])
      end
  end.
Proof.
  intros tagged looked line build. subst tagged looked line build.
  unfold BuildStep_action.
  destruct (Tag env TrimSpace DefaultImage SubImage i w) as [[tag [e|]] w1];
    cbn [fst snd]; [reflexivity|].
  destruct (version env TrimSpace w1) as [[v [e|]] w2]; cbn [fst snd];
    [reflexivity|].
  unfold sys.call.
  match goal with |- context [env ?h (sys.DockerBuild ?a ?b ?c ?d)] =>
    destruct (env h (sys.DockerBuild a b c d)) as [o4 e4] end.
  reflexivity.
Qed.

(** In a steady environment every lookup finds the same version. *)
Lemma steady_version out w :
  steady env out ->
  version env TrimSpace w =
  ((TrimSpace out, None), (w ++ [git_config]) ++ [git_describe]).
Proof.
  intros Hs. rewrite version_cases.
  destruct (Hs w) as [-> _]. destruct (Hs (w ++ [git_config])) as [_ ->].
  reflexivity.
Qed.

Lemma steady_Tag out i w :
  steady env out ->
  Tag env TrimSpace DefaultImage SubImage i w =
  ((if decide (Name i = "") then DefaultImage (TrimSpace out)
    else SubImage (Name i) (TrimSpace out), None),
   (w ++ [git_config]) ++ [git_describe]).
Proof.
  intros Hs. unfold Tag. rewrite (steady_version out w Hs).
  destruct (decide (Name i = "")) as [He|He].
  - rewrite decide_False by (intros H; now apply H). reflexivity.
  - rewrite decide_True by exact He. reflexivity.
Qed.

End Docker.

End DockerMoreFacts.

(** ** [CopyFile], call by call *)

Module CopyFacts.

Import fsutil.

Lemma count_app f a b : count f (a ++ b) = (count f a + count f b)%nat.
Proof. unfold count. now rewrite List.filter_app, length_app. Qed.

Section CopyFile.

Variable env : Oracle.
Variable Dir : string -> string.
Variable is_not_exist : errors.error -> bool.

(** From [os.Create] on: the destination is closed exactly when it was
    created, after the copy. *)
Lemma write_cases from to w :
  write env from to w =
  match err (env w (Create to)) with
  | Some e => (Some e, w ++ [Create to])
  | None =>
      (err (env (w ++ [Create to]) (Copy to from)),
       w ++ [Create to; Copy to from; Close to])
  end.
Proof.
  unfold write, call.
  destruct (err (env w (Create to))) as [e|]; [reflexivity|].
  rewrite <- !app_assoc. cbn [app].
  destruct (err (env (w ++ [Create to]) (Copy to from))); reflexivity.
Qed.

Lemma place_cases from to w :
  place env Dir is_not_exist from to w =
  match fst (cleared env Dir is_not_exist to w) with
  | Some e => (Some e, snd (cleared env Dir is_not_exist to w))
  | None => write env from to (snd (cleared env Dir is_not_exist to w))
  end.
Proof.
  unfold place, cleared, call.
  destruct (err (env w (Stat (Dir to)))) as [e|].
  - destruct (is_not_exist e); [|reflexivity].
    destruct (err (env (w ++ [Stat (Dir to)]) (MkdirAll (Dir to) 493))) as [e'|];
      [reflexivity|].
    destruct (info (env w (Stat (Dir to)))) as [[|]|]; reflexivity.
  - destruct (info (env w (Stat (Dir to)))) as [[|]|]; reflexivity.
Qed.

Lemma CopyFile_cases from to w :
  CopyFile env Dir is_not_exist from to w =
  match err (env w (Open from)) with
  | Some e => (Some e, w ++ [Open from])
  | None =>
      (fst (place env Dir is_not_exist from to (w ++ [Open from])),
       snd (place env Dir is_not_exist from to (w ++ [Open from])) ++ [Close from])
  end.
Proof.
  unfold CopyFile, call.
  destruct (err (env w (Open from))) as [e|]; [reflexivity|].
  destruct (place env Dir is_not_exist from to (w ++ [Open from])). reflexivity.
Qed.

(** The directory check adds a [Stat], then at most a [MkdirAll]. *)
Lemma cleared_world to w :
  snd (cleared env Dir is_not_exist to w) = w ++ [Stat (Dir to)] \/
  snd (cleared env Dir is_not_exist to w)
  = w ++ [Stat (Dir to); MkdirAll (Dir to) 493].
Proof.
  unfold cleared.
  destruct (err (env w (Stat (Dir to)))) as [e|].
  - destruct (is_not_exist e); [|now left].
    destruct (err (env (w ++ [Stat (Dir to)]) (MkdirAll (Dir to) 493)));
      [right; now rewrite <- app_assoc|].
    destruct (info (env w (Stat (Dir to)))) as [[|]|];
      right; now rewrite <- app_assoc.
  - destruct (info (env w (Stat (Dir to)))) as [[|]|]; now left.
Qed.

End CopyFile.

End CopyFacts.

(** ** The fuzzing entry point *)

Module FuzzFacts.

Import fuzz_scribe.

Section Fuzz.

Variable CommandOpts PipelineCommandOpts Consumer : Type.
Variable GetString : Consumer -> string * Consumer.

(** The loop that collects the arguments adds one string per round. *)
Lemma collect_length k : forall c acc,
  length (fst (collect Consumer GetString k c acc)) = (length acc + k)%nat.
Proof.
  induction k as [|k IH]; intros c acc; cbn [collect].
  - cbn. lia.
  - destruct (GetString c) as [temp c']. rewrite IH, length_app. cbn. lia.
Qed.

End Fuzz.

End FuzzFacts.

(** * The claims *)

Import pipeline shipwright registry.
Import GoIntFacts CounterFacts FrontFacts RegistryFacts EntryFacts ExecFacts.
Import DockerFacts DroneFacts WatcherFacts.
Import program ProgramFacts.

(** C1.  Run a pipeline definition from a counter value [n].  The [N]th step
    handed to the client is the [N]th step the definition declares, with
    the value of the counter after [N] increments as its serial, which is
    [n + N] short of the largest [int].  The serial, and the whole step,
    are the same under another client and from another process state with
    the same counter and version, wherever both hand an [N]th step over;
    a definition that returns has handed over every step it declares.

    That the steps do get their serials: the [N]th declared step reaches
    [Validate] with the [N]th counter value as its serial as soon as the
    client tolerates every step declared before it, the first declared
    step always; and when the client tolerates every declared step the
    definition returns, and the steps validated and the steps handed over
    are all the declared steps, in order, each with the counter value of
    its position, the same under every client that tolerates them.  One
    call of [Run] or [Parallel] leaves in its slice every step it was given
    with the counter value of its position written into it, and the counter
    advanced by the number of steps, whatever validation says. *)
Theorem C1_serials_follow_declaration_order
  (DefaultImage : string -> string) (client : Client)
  (prog : list Stmt) (p : Process) :
  let all := flat_map declared prog in
  let handed := handed_over (new_events (exec DefaultImage client prog) p) in
  let seen := validated (new_events (exec DefaultImage client prog) p) in
  let assigned := register_from DefaultImage (Version (sw p)) (n (sw p)) all in
  (forall N v, handed !! N = Some v ->
     Serial v = counter (n (sw p)) N /\
     (GoInt.in_range (n (sw p)) ->
      n (sw p) + Z.of_nat N <= GoInt.max_int ->
      Serial v = n (sw p) + Z.of_nat N) /\
     exists st, all !! N = Some st /\
       v = registered DefaultImage (Version (sw p)) (counter (n (sw p)) N) st) /\
  (forall client' p' N v v',
     sw p' = sw p ->
     handed !! N = Some v ->
     handed_over (new_events (exec DefaultImage client' prog) p') !! N = Some v' ->
     v = v') /\
  (fst (exec DefaultImage client prog p) = Returned tt ->
   length handed = length all) /\
  (forall N st, all !! N = Some st ->
     exists v,
       v = registered DefaultImage (Version (sw p)) (counter (n (sw p)) N) st /\
       Serial v = counter (n (sw p)) N /\
       (forallb (tolerated client) (take N assigned) = true -> seen !! N = Some v) /\
       (forallb (tolerated client) assigned = true -> handed !! N = Some v)) /\
  (forallb (tolerated client) assigned = true ->
     fst (exec DefaultImage client prog p) = Returned tt /\
     seen = assigned /\ handed = assigned /\
     forall client' p',
       sw p' = sw p ->
       forallb (tolerated client') assigned = true ->
       handed_over (new_events (exec DefaultImage client' prog) p') = handed) /\
  (forall mode s arr q,
     heap q !! s = Some arr ->
     let q' := snd (entry DefaultImage client mode s q) in
     n (sw q') = counter (n (sw q)) (length arr) /\
     forall i st, arr !! i = Some st ->
       heap q' !! s ≫= (.!! i)
       = Some (registered DefaultImage (Version (sw q)) (counter (n (sw q)) i) st)).
Proof.
  intros all handed seen assigned.
  assert (Hall : forallb (tolerated client) assigned = true ->
                 fst (exec DefaultImage client prog p) = Returned tt /\
                 seen = assigned /\ handed = assigned).
  { intros Hok. subst seen handed.
    rewrite exec_outcome, exec_new_events, trace_ok. fold all assigned.
    rewrite Hok. split; [reflexivity|].
    assert (Ht : snd (program.trace DefaultImage client (Version (sw p)) (n (sw p)) prog)
                 = true) by (rewrite trace_ok; exact Hok).
    destruct (trace_complete DefaultImage client _ prog _ Ht) as (Hv & Hh & _).
    split; assumption. }
  split; [|split; [|split; [|split; [|split]]]].
  - intros N v Hv.
    destruct (exec_handed_nth _ _ _ _ _ _ Hv) as (st & Hst & ->).
    split; [reflexivity|]. split; [|eauto].
    intros Hr Hle. rewrite registered_Serial. now apply counter_exact.
  - intros client' p' N v v' Hsw Hv Hv'.
    destruct (exec_handed_nth _ _ _ _ _ _ Hv) as (st & Hst & ->).
    destruct (exec_handed_nth _ _ _ _ _ _ Hv') as (st' & Hst' & ->).
    rewrite Hsw. congruence.
  - intros Hret.
    destruct (exec_events DefaultImage client prog p) as (evs & Hevs & _ & Hall').
    subst handed. rewrite Hevs, (Hall' Hret). apply register_from_length.
  - intros N st Hst. eexists. split; [reflexivity|]. split; [reflexivity|].
    assert (Hreg : assigned !! N
                   = Some (registered DefaultImage (Version (sw p))
                             (counter (n (sw p)) N) st)).
    { subst assigned. rewrite register_from_lookup, Hst. reflexivity. }
    split.
    + intros Hpre. subst seen. rewrite exec_new_events.
      now apply trace_reaches.
    + intros Hok. destruct (Hall Hok) as (_ & _ & ->). exact Hreg.
  - intros Hok. destruct (Hall Hok) as (Hret & Hseen & Hhanded).
    repeat (split; [assumption|]).
    intros client' p' Hsw Hok'. rewrite Hhanded.
    rewrite exec_new_events, Hsw.
    assert (Ht : snd (program.trace DefaultImage client' (Version (sw p)) (n (sw p)) prog)
                 = true) by (rewrite trace_ok; exact Hok').
    now destruct (trace_complete DefaultImage client' _ prog _ Ht) as (_ & Hh & _).
  - intros mode s arr q Hs q'. subst q'.
    destruct (entry_heap DefaultImage client mode s q arr Hs) as (Hheap & Hn).
    split; [exact Hn|].
    intros i st Hi. rewrite Hheap. cbn.
    rewrite register_from_lookup, Hi. reflexivity.
Qed.

(** C1 on the pipeline of [demo/basic/build.go], started at counter 0
    under the accepting client, which tolerates every step: the definition
    returns, a fourth step is handed over, its serial is 3 and it is the
    fourth step declared. *)
Lemma C1_witness :
  fst (exec demo.DefaultImage demo.accepting demo.basic demo.fresh) = Returned tt /\
  exists v,
    handed_over (new_events (exec demo.DefaultImage demo.accepting demo.basic)
                   demo.fresh) !! 3%nat = Some v /\
    Serial v = 3 /\ Name v = "compile backend".
Proof.
  assert (Hok : forallb (tolerated demo.accepting)
                  (register_from demo.DefaultImage (Version (sw demo.fresh))
                     (n (sw demo.fresh)) (flat_map declared demo.basic)) = true)
    by (vm_compute; reflexivity).
  assert (Hst : flat_map declared demo.basic !! 3%nat = Some demo.compile_backend)
    by (vm_compute; reflexivity).
  destruct (C1_serials_follow_declaration_order demo.DefaultImage
              demo.accepting demo.basic demo.fresh)
    as (_ & _ & _ & Hnth & Hall & _).
  destruct (Hall Hok) as (Hret & _).
  destruct (Hnth 3%nat _ Hst) as (v & Hv & Hserial & _ & Hhanded).
  split; [exact Hret|].
  exists v. split; [exact (Hhanded Hok)|].
  split; [rewrite Hserial; vm_compute; reflexivity|].
  rewrite Hv. vm_compute. reflexivity.
Defined.

(** C2.  In a call of [Run] or [Parallel], over the steps as registered:
    when every error [Validate] returns is skippable the call returns, each
    such error is logged as a warning, nothing is fatal and the client is
    handed every step, those warned about included; at the first error
    that is not skippable the process ends with a fatal report for that
    step, after the warnings for the steps before it, and the client is
    handed nothing.  The report names the step by its name, or by
    unnamed-step- followed by its serial when the name is empty, and gives
    the serial. *)
Theorem C2_validation_error_disposition
  (DefaultImage : string -> string) (client : Client) (mode : Mode)
  (s : slice) (arr : list Step) (p : Process) :
  heap p !! s = Some arr ->
  let steps := register_from DefaultImage (Version (sw p)) (n (sw p)) arr in
  let outcome := fst (entry DefaultImage client mode s p) in
  let evs := new_events (entry DefaultImage client mode s) p in
  (forallb (tolerated client) steps = true ->
     outcome = Returned tt /\
     warnings evs = warnings_for client steps /\
     fatals evs = [] /\
     handed_over evs = steps /\
     forall v err,
       v ∈ steps -> Validate client v = Some err ->
       errors.Is_ErrorSkipValidation err = true ->
       formatError v err ∈ warnings evs /\ v ∈ handed_over evs) /\
  (forall pre v post err,
     steps = pre ++ v :: post ->
     forallb (tolerated client) pre = true ->
     Validate client v = Some err ->
     errors.Is_ErrorSkipValidation err = false ->
     outcome = Exited 1 /\
     warnings evs = warnings_for client pre /\
     fatals evs = [formatError v err] /\
     last evs = Some (Fatalln (formatError v err)) /\
     validated evs = pre ++ [v] /\
     handed_over evs = [] /\
     formatError v err =
       "[name: "
       +:+ (if decide (Name v = "")
            then "unnamed-step-" +:+ pretty (Serial v) else Name v)
       +:+ ", id: " +:+ pretty (Serial v) +:+ "] " +:+ errors.Error err).
Proof.
  intros Hs steps outcome evs.
  assert (Hevs : evs = fst (validation client steps)
                   ++ (if snd (validation client steps)
                       then [client_call mode steps] else []))
    by (apply entry_events; exact Hs).
  assert (Hout : outcome = if snd (validation client steps)
                           then Returned tt else Exited 1).
  { subst outcome. now rewrite (entry_ok _ _ mode s p arr Hs). }
  split.
  - intros Hok.
    destruct (validation_tolerated client steps Hok) as (Hv & Hw & Hf).
    rewrite validation_ok, Hok in Hevs, Hout.
    assert (Hwarn : warnings evs = warnings_for client steps)
      by (rewrite Hevs, warnings_app, warnings_client_call, app_nil_r; exact Hw).
    assert (Hhand : handed_over evs = steps)
      by (now rewrite Hevs, handed_over_app, validation_handed_over,
            handed_over_client_call).
    repeat split; try assumption.
    + now rewrite Hevs, fatals_app, fatals_client_call, app_nil_r.
    + rewrite Hwarn. eapply warnings_for_elem; eauto.
    + now rewrite Hhand.
  - intros pre v post err Hsplit Hpre Hv He.
    destruct (validation_tolerated client pre Hpre) as (Hvp & Hwp & Hfp).
    assert (HV : validation client steps =
                 (fst (validation client pre)
                    ++ [ClientValidate v; Fatalln (formatError v err)], false)).
    { rewrite Hsplit, (validation_app client pre (v :: post) Hpre).
      now rewrite (validation_fatal client v err post Hv He). }
    rewrite HV in Hevs, Hout. cbn [fst snd] in Hevs, Hout.
    rewrite app_nil_r in Hevs.
    repeat split.
    + exact Hout.
    + rewrite Hevs, warnings_app, Hwp. apply app_nil_r.
    + now rewrite Hevs, fatals_app, Hfp.
    + rewrite Hevs.
      change [ClientValidate v; Fatalln (formatError v err)]
        with ([ClientValidate v] ++ [Fatalln (formatError v err)]).
      rewrite app_assoc. apply last_snoc.
    + now rewrite Hevs, validated_app, Hvp.
    + rewrite Hevs, handed_over_app.
      rewrite (no_client_call_handed_over (fst (validation client pre)))
        by apply validation_no_client_call.
      reflexivity.
Qed.

(** C2 on a slice of three steps whose second has no name, under a client
    that refuses steps without a name: the process ends and the one fatal
    report names the step by its generated label. *)
Lemma C2_witness :
  heap demo.holding !! 0%nat
  = Some [demo.install_frontend; demo.go_test; demo.compile_backend] /\
  fst (entry demo.DefaultImage demo.refuses_unnamed Sequential 0%nat demo.holding)
  = Exited 1 /\
  fatals (new_events (entry demo.DefaultImage demo.refuses_unnamed Sequential 0%nat)
            demo.holding)
  = ["[name: unnamed-step-8, id: 8] step has no name"].
Proof.
  split; [reflexivity|].
  pose proof (proj2 (C2_validation_error_disposition demo.DefaultImage
                 demo.refuses_unnamed Sequential 0%nat _ demo.holding eq_refl)
                [registered demo.DefaultImage "latest" 7 demo.install_frontend]
                (registered demo.DefaultImage "latest" 8 demo.go_test)
                [registered demo.DefaultImage "latest" 9 demo.compile_backend]
                (errors.New "step has no name")
                eq_refl eq_refl eq_refl eq_refl) as H.
  split; [exact (proj1 H) | exact (proj1 (proj2 (proj2 H)))].
Defined.

(** C3.  In a call of [Run] or [Parallel] the steps are handed to the client
    in one call that comes last: every event before it is of the
    validation, the steps validated before it are exactly the steps handed
    over, in order, and nothing follows it.  When every step is tolerated
    the call into the client does come; when one is not, nothing is handed
    over at all. *)
Theorem C3_validation_before_execution
  (DefaultImage : string -> string) (client : Client) (mode : Mode)
  (s : slice) (arr : list Step) (p : Process) :
  heap p !! s = Some arr ->
  let steps := register_from DefaultImage (Version (sw p)) (n (sw p)) arr in
  let evs := new_events (entry DefaultImage client mode s) p in
  (forall before e after,
      evs = before ++ e :: after -> is_client_call e = true ->
      e = client_call mode steps /\ validated before = steps /\
      handed_over before = [] /\ after = []) /\
  (forallb (tolerated client) steps = true ->
   exists before, evs = before ++ [client_call mode steps]) /\
  (forallb (tolerated client) steps = false -> handed_over evs = []).
Proof.
  intros Hs steps evs.
  assert (Hevs : evs = fst (validation client steps)
                   ++ (if snd (validation client steps)
                       then [client_call mode steps] else []))
    by (apply entry_events; exact Hs).
  pose proof (validation_no_client_call client steps) as Hno.
  rewrite validation_ok in Hevs.
  split; [|split].
  - intros before e after Heq He. rewrite Hevs in Heq.
    destruct (client_call_position _ _ _ _ _ Hno Heq He) as (k & -> & Htl).
    destruct (forallb (tolerated client) steps) eqn:Hok.
    + destruct k as [|x k].
      * cbn in Htl. injection Htl as <- <-.
        rewrite app_nil_r.
        destruct (validation_tolerated client steps Hok) as (Hv & _ & _).
        repeat split; [exact Hv | apply validation_handed_over].
      * cbn in Htl. injection Htl as _ Htl. now destruct k.
    + now destruct k.
  - intros Hok. rewrite Hok in Hevs. eauto.
  - intros Hok. rewrite Hok in Hevs. rewrite Hevs, app_nil_r.
    apply validation_handed_over.
Qed.

(** C3 on the same slice under a client that only warns: the call into the
    client is the last event and carries the three registered steps. *)
Lemma C3_witness :
  heap demo.holding !! 0%nat
  = Some [demo.install_frontend; demo.go_test; demo.compile_backend] /\
  exists before,
    new_events (entry demo.DefaultImage demo.warns_unnamed Concurrent 0%nat) demo.holding
    = before ++ [ClientParallel
                   (register_from demo.DefaultImage "latest" 7
                      [demo.install_frontend; demo.go_test; demo.compile_backend])].
Proof.
  split; [reflexivity|].
  exact (proj1 (proj2 (C3_validation_before_execution demo.DefaultImage
                         demo.warns_unnamed Concurrent 0%nat _ demo.holding eq_refl))
           eq_refl).
Defined.

(** C4.  [initSteps] itself, before anything is validated or handed to the
    client, writes the default image of the version into every step of the
    slice that has no image and leaves the image of the others; the step
    that [Validate] sees and the step that the client is handed at an index
    have the image so settled.

    [Run] and [Parallel] do this to every step they are given: a call is
    [initSteps] first, and validation and the call into the client run from
    the process as [initSteps] left it.  After the call every step of the
    slice has its image settled, whatever validation said; a step reaches
    [Validate] with its image settled as soon as the client tolerates the
    steps before it, the first step always; and when the client tolerates
    every step the call returns and every step is handed to the client with
    its image settled. *)
Theorem C4_default_image_at_registration
  (DefaultImage : string -> string) (client : Client) (mode : Mode)
  (s : slice) (arr : list Step) (p : Process) :
  heap p !! s = Some arr ->
  let settled st :=
    if decide (Image st = "") then DefaultImage (Version (sw p)) else Image st in
  (exists p1,
     initSteps DefaultImage s p = (Returned s, p1) /\
     log p1 = log p /\
     forall i st, arr !! i = Some st ->
       exists v, heap p1 !! s ≫= (.!! i) = Some v /\ Image v = settled st) /\
  (let evs := new_events (entry DefaultImage client mode s) p in
   forall i v,
     validated evs !! i = Some v \/ handed_over evs !! i = Some v ->
     exists st, arr !! i = Some st /\ Image v = settled st) /\
  (exists p1,
     initSteps DefaultImage s p = (Returned s, p1) /\
     entry DefaultImage client mode s p =
     (validateSteps client s ;; arr' ← contents s; emit (client_call mode arr')) p1) /\
  (let evs := new_events (entry DefaultImage client mode s) p in
   let registered_steps :=
     register_from DefaultImage (Version (sw p)) (n (sw p)) arr in
   (forall i st, arr !! i = Some st ->
      (exists v, heap (snd (entry DefaultImage client mode s p)) !! s ≫= (.!! i) = Some v /\
                 Image v = settled st) /\
      (forallb (tolerated client) (take i registered_steps) = true ->
       exists v, validated evs !! i = Some v /\ Image v = settled st) /\
      (forallb (tolerated client) registered_steps = true ->
       exists v, handed_over evs !! i = Some v /\ Image v = settled st)) /\
   (forallb (tolerated client) registered_steps = true ->
    fst (entry DefaultImage client mode s p) = Returned tt /\
    length (validated evs) = length arr /\
    length (handed_over evs) = length arr)).
Proof.
  intros Hs settled.
  assert (Hsl : (s < length (heap p))%nat) by (eapply lookup_lt_Some; eauto).
  split; [|split; [|split]].
  - eexists. split; [apply initSteps_ok; exact Hs|].
    split; [reflexivity|].
    intros i st Hi. cbn [heap].
    rewrite list_lookup_insert_eq by exact Hsl. cbn.
    rewrite register_from_lookup, Hi. cbn.
    eexists. split; [reflexivity|]. apply registered_Image.
  - intros evs i v Hobs.
    pose proof (entry_observed DefaultImage client mode s p arr i v Hs Hobs) as Hreg.
    rewrite register_from_lookup in Hreg.
    destruct (arr !! i) as [st|]; [|discriminate].
    cbn in Hreg. injection Hreg as <-.
    exists st. split; [reflexivity|]. apply registered_Image.
  - exact (entry_after_initSteps DefaultImage client mode s p arr Hs).
  - intros evs registered_steps.
    assert (Hevs : evs = fst (validation client registered_steps)
                         ++ (if snd (validation client registered_steps)
                             then [client_call mode registered_steps] else []))
      by exact (entry_events DefaultImage client mode s p arr Hs).
    assert (Hall : forallb (tolerated client) registered_steps = true ->
                   validated evs = registered_steps /\
                   handed_over evs = registered_steps).
    { intros Hok. rewrite Hevs, validation_ok, Hok.
      rewrite validated_app, handed_over_app, validation_handed_over,
        validated_client_call, handed_over_client_call, app_nil_r.
      destruct (validation_tolerated client _ Hok) as (-> & _).
      split; reflexivity. }
    split.
    + intros i st Hi.
      assert (Hreg : registered_steps !! i
                     = Some (registered DefaultImage (Version (sw p))
                               (counter (n (sw p)) i) st)).
      { subst registered_steps. rewrite register_from_lookup, Hi. reflexivity. }
      split; [|split].
      * destruct (entry_heap DefaultImage client mode s p arr Hs) as (-> & _).
        cbn. fold registered_steps. rewrite Hreg.
        eexists. split; [reflexivity|]. apply registered_Image.
      * intros Hpre. eexists. split; [|apply registered_Image].
        rewrite Hevs, validated_app.
        apply lookup_app_l_Some.
        exact (validation_reaches client registered_steps i _ Hreg Hpre).
      * intros Hok. destruct (Hall Hok) as (_ & ->).
        eexists. split; [exact Hreg|]. apply registered_Image.
    + intros Hok. destruct (Hall Hok) as (-> & ->).
      rewrite (entry_ok DefaultImage client mode s p arr Hs). cbn [fst].
      fold registered_steps. rewrite validation_ok, Hok.
      split; [reflexivity|].
      subst registered_steps. rewrite register_from_length. split; reflexivity.
Qed.

(** C4 on the same slice under the accepting client: the call returns, and
    the third step, declared without an image, is validated and handed
    over with the default image of the version. *)
Lemma C4_witness :
  heap demo.holding !! 0%nat
  = Some [demo.install_frontend; demo.go_test; demo.compile_backend] /\
  Image demo.compile_backend = "" /\
  fst (entry demo.DefaultImage demo.accepting Sequential 0%nat demo.holding)
  = Returned tt /\
  (exists v,
     validated (new_events (entry demo.DefaultImage demo.accepting Sequential 0%nat)
                  demo.holding) !! 2%nat = Some v /\
     Image v = "grafana/shipwright:latest") /\
  (exists v,
     handed_over (new_events (entry demo.DefaultImage demo.accepting Sequential 0%nat)
                    demo.holding) !! 2%nat = Some v /\
     Image v = "grafana/shipwright:latest").
Proof.
  assert (Hok : forallb (tolerated demo.accepting)
                  (register_from demo.DefaultImage (Version (sw demo.holding))
                     (n (sw demo.holding))
                     [demo.install_frontend; demo.go_test; demo.compile_backend])
                = true) by (vm_compute; reflexivity).
  assert (Hpre : forallb (tolerated demo.accepting)
                   (take 2 (register_from demo.DefaultImage (Version (sw demo.holding))
                              (n (sw demo.holding))
                              [demo.install_frontend; demo.go_test; demo.compile_backend]))
                 = true) by (vm_compute; reflexivity).
  destruct (C4_default_image_at_registration demo.DefaultImage demo.accepting
              Sequential 0%nat
              [demo.install_frontend; demo.go_test; demo.compile_backend]
              demo.holding eq_refl)
    as (_ & _ & _ & Hsteps & Hall).
  destruct (Hall Hok) as (Hret & _).
  destruct (Hsteps 2%nat demo.compile_backend eq_refl) as (_ & Hseen & Hhanded).
  split; [reflexivity|]. split; [reflexivity|]. split; [exact Hret|].
  destruct (Hseen Hpre) as (v & Hv & Himage).
  destruct (Hhanded Hok) as (v' & Hv' & Himage').
  split; [exists v | exists v'].
  - split; [exact Hv|]. rewrite Himage. vm_compute. reflexivity.
  - split; [exact Hv'|]. rewrite Himage'. vm_compute. reflexivity.
Defined.

(** C5.  For the manifest emitted for any list of stages: it has as many
    records as the stages have steps; the records of a stage carry, in the
    order of declaration, the names, images and re-invocation commands of
    the steps of the stage; a record of the first stage depends on
    nothing; a record of any later stage has as its dependency list the
    names of the records of the stage just before it, all of them, in
    order, and nothing else. *)
Theorem C5_manifest_fidelity
  (Slugify : string -> string) (path : string)
  (stages : list (list pipeline.Step)) :
  let manifest := drone.Done (drone.emit Slugify path stages) in
  let records := drone.stage_records stages manifest in
  length manifest = list_sum (map length stages) /\
  (forall k ss, stages !! k = Some ss ->
     map drone.name (records k) = drone.names Slugify ss /\
     map drone.image (records k) = map pipeline.Image ss /\
     map drone.commands (records k)
     = map (fun s => ["shipwright -step=" +:+ pretty (pipeline.Serial s)
                        +:+ " " +:+ path]) ss) /\
  (forall r, r ∈ records 0%nat -> drone.depends_on r = []) /\
  (forall k r, r ∈ records (S k) ->
     drone.depends_on r = map drone.name (records k)).
Proof.
  intros manifest records. subst records manifest.
  split; [|split; [|split]].
  - rewrite emit_by_stage, length_concat, by_stage_length. reflexivity.
  - intros k ss Hk. rewrite (stage_records_emit Slugify path stages k ss Hk).
    rewrite record_names, !map_map. repeat split.
  - intros r Hr. destruct (stages !! 0%nat) as [ss|] eqn:H0.
    + rewrite (stage_records_emit Slugify path stages _ ss H0) in Hr.
      apply list_elem_of_In, in_map_iff in Hr as (s & <- & _). reflexivity.
    + unfold drone.stage_records in Hr. rewrite H0 in Hr. cbn in Hr.
      now apply not_elem_of_nil in Hr.
  - intros k r Hr. destruct (stages !! S k) as [ss|] eqn:HS.
    + rewrite (stage_records_emit Slugify path stages _ ss HS) in Hr.
      apply list_elem_of_In, in_map_iff in Hr as (s & <- & _).
      cbn [drone.record drone.depends_on drone.previous].
      destruct (stages !! k) as [ss'|] eqn:Hk.
      * rewrite (stage_records_emit Slugify path stages _ ss' Hk).
        now rewrite record_names.
      * apply lookup_ge_None in Hk.
        apply lookup_lt_Some in HS. lia.
    + unfold drone.stage_records in Hr. rewrite HS in Hr. cbn in Hr.
      now apply not_elem_of_nil in Hr.
Qed.

(** C6, as the code has it.  Nothing is kept between lookups: every call of
    [version] whose first command succeeds runs the describe command once
    more, whatever ran before, and a call whose first command fails does
    not run it; [Tag] runs it as often as the one lookup it makes; the
    action of [BuildStep], when the commands succeed, runs it twice, once
    through [Tag] and once for the build argument. *)
Theorem C6_version_looked_up_on_every_call
  (env : sys.Oracle) (TrimSpace DefaultImage : string -> string)
  (SubImage : string -> string -> string) :
  (forall w, snd (env w docker.git_config) = None ->
     docker.describe_runs (snd (docker.version env TrimSpace w))
     = S (docker.describe_runs w)) /\
  (forall w, snd (env w docker.git_config) <> None ->
     docker.describe_runs (snd (docker.version env TrimSpace w))
     = docker.describe_runs w) /\
  (forall i w,
     docker.describe_runs (snd (docker.Tag env TrimSpace DefaultImage SubImage i w))
     = docker.describe_runs (snd (docker.version env TrimSpace w))) /\
  (forall i opts w,
     (forall w' c, snd (env w' c) = None) ->
     docker.describe_runs
       (snd (docker.BuildStep_action env TrimSpace DefaultImage SubImage i opts w))
     = S (S (docker.describe_runs w))).
Proof.
  repeat split.
  - intros w Hok. rewrite version_describe_runs. now rewrite Hok.
  - intros w Hko. rewrite version_describe_runs.
    destruct (snd (env w docker.git_config)); [reflexivity | congruence].
  - intros i w. now rewrite Tag_world.
  - intros i opts w Hok.
    rewrite (BuildStep_action_world env TrimSpace DefaultImage SubImage i opts w Hok).
    rewrite !describe_runs_snoc. cbn. lia.
Qed.

(** C6 as stated fails: started with an empty history, where the git
    commands succeed, the action of [BuildStep] for the root image has run
    the describe command twice when it returns. *)
Lemma C6_counterexample :
  let history :=
    snd (docker.BuildStep_action demo.git_works demo.TrimSpace demo.DefaultImage
           demo.SubImage docker.ScribeImage demo.no_token []) in
  docker.describe_runs history = 2%nat /\ ~ (docker.describe_runs history <= 1)%nat.
Proof. split; [reflexivity | vm_compute; lia]. Qed.

(** C6 on the environment in which the git commands succeed: one action
    of [BuildStep] adds two runs of the describe command. *)
Lemma C6_witness :
  (forall w' c, snd (demo.git_works w' c) = None) /\
  docker.describe_runs
    (snd (docker.BuildStep_action demo.git_works demo.TrimSpace demo.DefaultImage
            demo.SubImage docker.ScribeImage demo.no_token []))
  = 2%nat.
Proof.
  assert (H : forall w' c, snd (demo.git_works w' c) = None).
  { intros w' c. unfold demo.git_works. repeat case_match; reflexivity. }
  split; [exact H|].
  exact (proj2 (proj2 (proj2 (C6_version_looked_up_on_every_call demo.git_works
                  demo.TrimSpace demo.DefaultImage demo.SubImage)))
           docker.ScribeImage demo.no_token [] H).
Defined.

(** C7, as the code has it.  After [New], a first signal out of SIGHUP,
    SIGINT, SIGTERM and SIGQUIT is taken by the goroutine, which prints the
    escape sequence that shows the cursor and ends.  Whatever signals
    arrive and whenever the goroutine runs, the sequence is printed at most
    once, the spawned processes that were running are left running and the
    process does not end. *)
Theorem C7_signal_watcher_shows_cursor_only
  (out : list string) (children : list nat) :
  (forall sig,
     watcher.run [watcher.Deliver sig; watcher.Schedule] (watcher.New out children)
     = {| watcher.sigs := []; watcher.waiting := false;
          watcher.stdout := out ++ [watcher.show_cursor];
          watcher.in_flight := children; watcher.exited := false |}) /\
  (forall ms,
     let r := watcher.run ms (watcher.New out children) in
     watcher.in_flight r = children /\
     watcher.exited r = false /\
     (watcher.stdout r = out \/ watcher.stdout r = out ++ [watcher.show_cursor])).
Proof.
  split.
  - intros sig. reflexivity.
  - intros ms r.
    destruct (run_leaves_children ms (watcher.New out children)) as [Hc He].
    assert (Hp : watcher.printed_once out r).
    { apply run_printed_once. left. split; reflexivity. }
    repeat split; [exact Hc | exact He |].
    destruct Hp as [[_ H]|[_ H]]; auto.
Qed.

(** C7 as stated fails: with one spawned process running, SIGTERM arrives
    and the goroutine handles it; the spawned process is still running and
    the process has not ended, and no later move changes that. *)
Lemma C7_counterexample :
  let r := watcher.run [watcher.Deliver watcher.SIGTERM; watcher.Schedule]
             (watcher.New [] [4242%nat]) in
  watcher.waiting r = false /\
  watcher.stdout r = [watcher.show_cursor] /\
  watcher.in_flight r = [4242%nat] /\
  watcher.exited r = false /\
  (forall ms, watcher.in_flight (watcher.run ms r) = [4242%nat] /\
              watcher.exited (watcher.run ms r) = false).
Proof.
  repeat split; apply run_leaves_children.
Qed.

(** C8.  [Tag] looks the version up once and adds nothing to what the
    lookup did.  When the lookup fails, [Tag] returns that error with an
    empty tag; when it succeeds, [Tag] returns no error and the tag is the
    default image of the version for an image without a name, the
    sub-image of the name and the version otherwise.  So [Tag] returns an
    error exactly when the lookup does. *)
Theorem C8_Tag_combines_name_and_version
  (env : sys.Oracle) (TrimSpace DefaultImage : string -> string)
  (SubImage : string -> string -> string) (i : docker.Image) (w : sys.World) :
  let looked := docker.version env TrimSpace w in
  let tagged := docker.Tag env TrimSpace DefaultImage SubImage i w in
  snd tagged = snd looked /\
  (forall e, snd (fst looked) = Some e ->
     fst tagged = ("", Some e)) /\
  (snd (fst looked) = None ->
     fst tagged =
       (if decide (docker.Name i = "")
        then DefaultImage (fst (fst looked))
        else SubImage (docker.Name i) (fst (fst looked)), None)) /\
  (snd (fst tagged) <> None <-> snd (fst looked) <> None).
Proof.
  intros looked tagged. subst looked tagged. unfold docker.Tag.
  destruct (docker.version env TrimSpace w) as [[v [e|]] w1]; cbn [fst snd].
  - repeat split; congruence.
  - repeat split; try congruence.
    intros _. destruct (decide (docker.Name i = "")) as [He|He].
    + rewrite decide_False by (intros H; now apply H). reflexivity.
    + rewrite decide_True by exact He. reflexivity.
Qed.

(** C9, as the code has it.  Every push step, alone or in [PushSteps],
    lists the auth token among its arguments.  Its action computes the tag
    first.  With the token absent from the state no push is attempted: the
    action returns the lookup error when the tag was computed, and the
    error of the tag when it was not.  With the token present and the tag
    computed, the action ends with one push of that tag to the default
    registry with that token. *)
Theorem C9_push_resolves_token_first
  (env : sys.Oracle) (TrimSpace DefaultImage : string -> string)
  (SubImage : string -> string -> string)
  (DefaultRegistry auth_token_key : string) :
  let arg := docker.ArgumentDockerAuthToken auth_token_key in
  let tag := docker.Tag env TrimSpace DefaultImage SubImage in
  let action := docker.PushStep_action env TrimSpace DefaultImage SubImage
                  DefaultRegistry auth_token_key in
  let step := docker.PushStep env TrimSpace DefaultImage SubImage
                DefaultRegistry auth_token_key in
  (forall i sw, arg ∈ Arguments (step i sw) /\ Action (step i sw) = action i) /\
  (forall sw images st,
     st ∈ docker.PushSteps env TrimSpace DefaultImage SubImage
            DefaultRegistry auth_token_key sw images ->
     arg ∈ Arguments st) /\
  (forall i opts w e,
     State_GetString opts arg = inr e ->
     docker.pushes (snd (action i opts w)) = docker.pushes w /\
     (snd (fst (tag i w)) = None -> fst (action i opts w) = Some e) /\
     (forall e', snd (fst (tag i w)) = Some e' -> fst (action i opts w) = Some e')) /\
  (forall i opts w auth,
     State_GetString opts arg = inl auth ->
     snd (fst (tag i w)) = None ->
     docker.pushes (snd (action i opts w)) = S (docker.pushes w) /\
     last (snd (action i opts w))
     = Some (sys.DockerPush (fst (fst (tag i w))) DefaultRegistry auth)).
Proof.
  intros arg tag action step.
  assert (Harg : forall i sw, arg ∈ Arguments (step i sw)).
  { intros i sw. subst step arg. unfold docker.PushStep. cbn.
    apply list_elem_of_In. cbn. auto. }
  split; [|split; [|split]].
  - intros i sw. split; [apply Harg | reflexivity].
  - intros sw images st Hst. apply list_elem_of_In in Hst.
    unfold docker.PushSteps in Hst. apply in_map_iff in Hst as (image & <- & _).
    cbn [WithName Arguments]. apply Harg.
  - intros i opts w e Habsent. subst action tag.
    rewrite (PushStep_action_cases env TrimSpace DefaultImage SubImage
               DefaultRegistry auth_token_key i opts w).
    cbn zeta. fold arg. rewrite Habsent.
    destruct (snd (fst (docker.Tag env TrimSpace DefaultImage SubImage i w)))
      as [e0|]; cbn [fst snd]; rewrite Tag_world, version_pushes;
      repeat split; congruence.
  - intros i opts w auth Hpresent Htag. subst action tag.
    rewrite (PushStep_action_cases env TrimSpace DefaultImage SubImage
               DefaultRegistry auth_token_key i opts w).
    cbn zeta. fold arg. rewrite Hpresent, Htag. cbn [fst snd].
    split.
    + rewrite !pushes_snoc, Tag_world, version_pushes. cbn. lia.
    + apply last_snoc.
Qed.

(** C9 as stated fails: where the git commands fail and the state holds no
    token, the action of the push step of the root image returns the error
    of the version lookup, not the lookup error of the state; it attempts
    no push. *)
Lemma C9_counterexample :
  let arg := docker.ArgumentDockerAuthToken demo.auth_token_key in
  let result :=
    docker.PushStep_action demo.git_fails demo.TrimSpace demo.DefaultImage
      demo.SubImage demo.DefaultRegistry demo.auth_token_key
      docker.ScribeImage demo.no_token [] in
  State_GetString demo.no_token arg = inr (errors.New "key not found in state") /\
  fst result <> Some (errors.New "key not found in state") /\
  errors.Unwrap <$> fst result = Some (Some (errors.New "exit status 128")) /\
  docker.pushes (snd result) = 0%nat.
Proof. repeat split. vm_compute. discriminate. Qed.

(** C9 where the git commands succeed and the state holds no token: the
    action returns the lookup error of the state and pushes nothing. *)
Lemma C9_witness :
  State_GetString demo.no_token (docker.ArgumentDockerAuthToken demo.auth_token_key)
  = inr (errors.New "key not found in state") /\
  fst (docker.PushStep_action demo.git_works demo.TrimSpace demo.DefaultImage
         demo.SubImage demo.DefaultRegistry demo.auth_token_key
         docker.ScribeImage demo.no_token [])
  = Some (errors.New "key not found in state") /\
  docker.pushes
    (snd (docker.PushStep_action demo.git_works demo.TrimSpace demo.DefaultImage
            demo.SubImage demo.DefaultRegistry demo.auth_token_key
            docker.ScribeImage demo.no_token []))
  = 0%nat.
Proof.
  split; [reflexivity|].
  pose proof (proj1 (proj2 (proj2 (C9_push_resolves_token_first demo.git_works
                 demo.TrimSpace demo.DefaultImage demo.SubImage
                 demo.DefaultRegistry demo.auth_token_key)))
                docker.ScribeImage demo.no_token []
                (errors.New "key not found in state") eq_refl) as H.
  split; [exact (proj1 (proj2 H) eq_refl) | exact (proj1 H)].
Defined.

(** C10.  Provided the default image of the version is not the empty string:
    a call of [Run] or [Parallel] leaves the slice it was given holding the
    steps as registered, serial and image written in place; the steps
    [Validate] is called on are an initial part of that same slice, in
    order; none of them has an empty image; and under a client whose
    [Validate] only objects to an empty image the call returns with nothing
    logged as fatal or as a warning. *)
Theorem C10_validate_never_sees_empty_image
  (DefaultImage : string -> string) (client : Client) (mode : Mode)
  (s : slice) (arr : list Step) (p : Process) :
  DefaultImage (Version (sw p)) <> "" ->
  heap p !! s = Some arr ->
  let steps := register_from DefaultImage (Version (sw p)) (n (sw p)) arr in
  let run := entry DefaultImage client mode s p in
  let evs := new_events (entry DefaultImage client mode s) p in
  heap (snd run) !! s = Some steps /\
  validated evs `prefix_of` steps /\
  (forall v, v ∈ validated evs -> Image v <> "") /\
  ((forall v, Image v <> "" -> Validate client v = None) ->
   fst run = Returned tt /\ fatals evs = [] /\ warnings evs = [] /\
   validated evs = steps /\ handed_over evs = steps).
Proof.
  intros Hdi Hs steps run evs.
  assert (Hsl : (s < length (heap p))%nat) by (eapply lookup_lt_Some; eauto).
  assert (Himg : forall v, v ∈ steps -> Image v <> "").
  { intros v [i Hi]%list_elem_of_lookup. subst steps.
    rewrite register_from_lookup in Hi.
    destruct (arr !! i) as [st|]; [|discriminate].
    cbn in Hi. injection Hi as <-. rewrite registered_Image.
    destruct (decide (Image st = "")); assumption. }
  assert (Hevs : evs = fst (validation client steps)
                   ++ (if snd (validation client steps)
                       then [client_call mode steps] else []))
    by (apply entry_events; exact Hs).
  assert (Hval : validated evs = validated (fst (validation client steps))).
  { rewrite Hevs, validated_app.
    destruct (snd (validation client steps));
      [rewrite validated_client_call|]; apply app_nil_r. }
  assert (Hpre : validated evs `prefix_of` steps)
    by (rewrite Hval; apply validation_validated_prefix).
  split; [|split; [exact Hpre|split]].
  - subst run. rewrite (entry_ok _ _ mode s p arr Hs). cbn [snd heap].
    now apply list_lookup_insert_eq.
  - intros v [i Hi]%list_elem_of_lookup. apply Himg.
    apply list_elem_of_lookup. exists i.
    eapply prefix_lookup_Some; eauto.
  - intros Hclient.
    assert (Hok : forallb (tolerated client) steps = true).
    { apply forallb_forall. intros v Hv%list_elem_of_In.
      unfold tolerated. now rewrite (Hclient v (Himg v Hv)). }
    destruct (validation_tolerated client steps Hok) as (Hv & Hw & Hf).
    rewrite validation_ok, Hok in Hevs.
    assert (Hnone : warnings_for client steps = []).
    { unfold warnings_for.
      clear -Hclient Himg. induction steps as [|v l IH]; [reflexivity|].
      cbn [flat_map]. rewrite (Hclient v) by (apply Himg; left).
      apply IH. intros w Hw. apply Himg. now right. }
    repeat split.
    + subst run. rewrite (entry_ok _ _ mode s p arr Hs). cbn [fst].
      fold steps. now rewrite validation_ok, Hok.
    + now rewrite Hevs, fatals_app, fatals_client_call, app_nil_r.
    + now rewrite Hevs, warnings_app, warnings_client_call,
        app_nil_r, Hw.
    + now rewrite Hval.
    + now rewrite Hevs, handed_over_app, validation_handed_over,
        handed_over_client_call.
Qed.

(** C10 on the same slice under a client that insists on an image: no step
    it is asked to validate lacks one. *)
Lemma C10_witness :
  demo.DefaultImage (Version (sw demo.holding)) <> "" /\
  heap demo.holding !! 0%nat
  = Some [demo.install_frontend; demo.go_test; demo.compile_backend] /\
  forall v,
    v ∈ validated (new_events (entry demo.DefaultImage demo.wants_image Sequential 0%nat)
                     demo.holding) ->
    Image v <> "".
Proof.
  assert (H : demo.DefaultImage (Version (sw demo.holding)) <> "")
    by (vm_compute; discriminate).
  split; [exact H|]. split; [reflexivity|].
  exact (proj1 (proj2 (proj2 (C10_validate_never_sees_empty_image demo.DefaultImage
                  demo.wants_image Sequential 0%nat _ demo.holding H eq_refl)))).
Defined.

(** * Further properties of the code *)

Import program ProgramFacts UniqueFacts TextFacts.
Import history DockerMoreFacts.
Import CopyFacts FuzzFacts.

(** X1.  [initSteps] on a slice returns that slice and writes only the
    serial and a missing image: the slice keeps its length, every step
    keeps its name, its arguments, its action and an image it had; the
    counter has advanced by the number of steps; the log, the version and
    every other slice of the process are as they were. *)
Theorem X1_initSteps_writes_serial_and_image_only
  (DefaultImage : string -> string) (s : slice) (arr : list Step) (p : Process) :
  heap p !! s = Some arr ->
  let p1 := snd (initSteps DefaultImage s p) in
  fst (initSteps DefaultImage s p) = Returned s /\
  log p1 = log p /\
  Version (sw p1) = Version (sw p) /\
  n (sw p1) = counter (n (sw p)) (length arr) /\
  length (heap p1) = length (heap p) /\
  (forall s', s' <> s -> heap p1 !! s' = heap p !! s') /\
  exists arr',
    heap p1 !! s = Some arr' /\ length arr' = length arr /\
    forall i st, arr !! i = Some st ->
      exists v, arr' !! i = Some v /\
        Name v = Name st /\ Arguments v = Arguments st /\ Action v = Action st /\
        (Image st <> "" -> Image v = Image st).
Proof.
  intros Hs p1. subst p1. rewrite (initSteps_ok DefaultImage s p arr Hs).
  cbn [fst snd sw heap log n Version].
  assert (Hsl : (s < length (heap p))%nat) by (eapply lookup_lt_Some; eauto).
  repeat split.
  - apply length_insert.
  - intros s' Hne. now apply list_lookup_insert_ne.
  - eexists. split; [now apply list_lookup_insert_eq|].
    split; [apply register_from_length|].
    intros i st Hi. rewrite register_from_lookup, Hi. cbn.
    eexists. split; [reflexivity|].
    unfold registered. destruct (decide (Image st = "")); repeat split; congruence.
Qed.

(** X1 on a slice of three steps: the second, which has an image and no
    name, keeps both. *)
Lemma X1_witness :
  heap demo.holding !! 0%nat
  = Some [demo.install_frontend; demo.go_test; demo.compile_backend] /\
  n (sw (snd (initSteps demo.DefaultImage 0%nat demo.holding))) = 10.
Proof.
  split; [reflexivity|].
  rewrite (proj1 (proj2 (proj2 (proj2 (X1_initSteps_writes_serial_and_image_only
             demo.DefaultImage 0%nat _ demo.holding eq_refl))))).
  vm_compute. reflexivity.
Defined.

(** X2.  Within one pipeline definition, started from a counter in the
    range of [int] and declaring at most 2^64 steps, two steps handed to
    the client at different positions have different serials. *)
Theorem X2_serials_are_unique
  (DefaultImage : string -> string) (client : Client)
  (prog : list Stmt) (p : Process) (N M : nat) (v w : Step) :
  GoInt.in_range (n (sw p)) ->
  Z.of_nat (length (flat_map declared prog)) <= 2 ^ 64 ->
  handed_over (new_events (exec DefaultImage client prog) p) !! N = Some v ->
  handed_over (new_events (exec DefaultImage client prog) p) !! M = Some w ->
  N <> M ->
  Serial v <> Serial w.
Proof.
  intros Hr Hlen Hv Hw Hne Heq.
  destruct (exec_handed_nth _ _ _ _ _ _ Hv) as (st & Hst & ->).
  destruct (exec_handed_nth _ _ _ _ _ _ Hw) as (st' & Hst' & ->).
  rewrite !registered_Serial in Heq.
  apply lookup_lt_Some in Hst, Hst'.
  apply Hne. eapply counter_inj; eauto; lia.
Qed.

(** X2 on the pipeline of [demo/basic/build.go]: the second and the
    fourth step. *)
Lemma X2_witness :
  GoInt.in_range (n (sw demo.fresh)) /\
  Z.of_nat (length (flat_map declared demo.basic)) <= 2 ^ 64 /\
  Serial (registered demo.DefaultImage "latest" 1 demo.install_backend)
  <> Serial (registered demo.DefaultImage "latest" 3 demo.compile_backend).
Proof.
  assert (Hr : GoInt.in_range (n (sw demo.fresh))) by (vm_compute; split; discriminate).
  assert (Hl : Z.of_nat (length (flat_map declared demo.basic)) <= 2 ^ 64)
    by (vm_compute; discriminate).
  split; [exact Hr|]. split; [exact Hl|].
  refine (X2_serials_are_unique demo.DefaultImage demo.accepting demo.basic
            demo.fresh 1%nat 3%nat _ _ Hr Hl _ _ _).
  - vm_compute. reflexivity.
  - vm_compute. reflexivity.
  - discriminate.
Defined.

(** X3.  A pipeline definition never reads or writes a slice out of
    range: from any process it either returns, and this exactly when the
    client tolerates every declared step as registered, or ends the
    process with status 1.  When it returns, every declared step has been
    validated and handed over, in order, the warnings are those of the
    skippable errors, nothing fatal is logged and the counter has advanced
    by the number of declared steps. *)
Theorem X3_definition_returns_or_exits
  (DefaultImage : string -> string) (client : Client)
  (prog : list Stmt) (p : Process) :
  let all := register_from DefaultImage (Version (sw p)) (n (sw p))
               (flat_map declared prog) in
  let run := exec DefaultImage client prog p in
  let evs := new_events (exec DefaultImage client prog) p in
  fst run = (if forallb (tolerated client) all then Returned tt else Exited 1) /\
  (fst run = Returned tt ->
     validated evs = all /\ handed_over evs = all /\
     warnings evs = warnings_for client all /\ fatals evs = [] /\
     n (sw (snd run)) = counter (n (sw p)) (length (flat_map declared prog))).
Proof.
  intros all run evs. subst run evs.
  rewrite exec_new_events, exec_outcome.
  pose proof (trace_ok DefaultImage client (Version (sw p)) prog (n (sw p))) as Hok.
  fold all in Hok. rewrite <- Hok. split; [reflexivity|].
  destruct (snd (trace DefaultImage client (Version (sw p)) (n (sw p)) prog)) eqn:Ht;
    [|discriminate].
  intros _.
  destruct (trace_complete DefaultImage client _ prog _ Ht) as (Hv & Hh & Hw & Hf).
  destruct (exec_trace DefaultImage client prog p) as (p' & Hrun & _ & _ & Hn).
  rewrite Hrun. cbn [snd]. repeat split; auto.
Qed.

(** X4.  Whether the calls of a definition are [Run] or [Parallel] calls
    changes nothing but the kind of the calls into the client: two
    definitions whose calls declare the same steps call by call have the
    same outcome and validate, warn about, report and hand over the
    same. *)
Theorem X4_mode_does_not_matter
  (DefaultImage : string -> string) (client : Client)
  (prog prog' : list Stmt) (p : Process) :
  map declared prog = map declared prog' ->
  let evs := new_events (exec DefaultImage client prog) p in
  let evs' := new_events (exec DefaultImage client prog') p in
  fst (exec DefaultImage client prog p) = fst (exec DefaultImage client prog' p) /\
  validated evs = validated evs' /\
  handed_over evs = handed_over evs' /\
  warnings evs = warnings evs' /\
  fatals evs = fatals evs'.
Proof.
  intros Hd evs evs'. subst evs evs'.
  rewrite !exec_new_events, !exec_outcome.
  destruct (trace_modes DefaultImage client (Version (sw p)) prog prog'
              (n (sw p)) Hd) as (-> & Hv & Hh & Hw & Hf).
  repeat split; assumption.
Qed.

(** X4 on the pipeline of [demo/basic/build.go] with its first call
    turned into a [Parallel] call. *)
Lemma X4_witness :
  map declared demo.basic
  = map declared
      [ ParallelStmt [demo.install_frontend; demo.install_backend];
        RunStmt [demo.write_version; demo.compile_backend; demo.compile_frontend] ] /\
  handed_over (new_events (exec demo.DefaultImage demo.accepting demo.basic) demo.fresh)
  = handed_over
      (new_events
         (exec demo.DefaultImage demo.accepting
            [ ParallelStmt [demo.install_frontend; demo.install_backend];
              RunStmt [demo.write_version; demo.compile_backend;
                       demo.compile_frontend] ])
         demo.fresh).
Proof.
  split; [reflexivity|].
  exact (proj1 (proj2 (proj2 (X4_mode_does_not_matter demo.DefaultImage
                  demo.accepting demo.basic _ demo.fresh eq_refl)))).
Defined.

(** X5.  How the steps are grouped into calls does not matter to a
    definition that returns: two definitions that declare the same steps
    in the same order and both return hand the same steps over, with the
    same serials and images, and leave the same counter. *)
Theorem X5_grouping_does_not_matter
  (DefaultImage : string -> string) (client client' : Client)
  (prog prog' : list Stmt) (p : Process) :
  flat_map declared prog = flat_map declared prog' ->
  fst (exec DefaultImage client prog p) = Returned tt ->
  fst (exec DefaultImage client' prog' p) = Returned tt ->
  handed_over (new_events (exec DefaultImage client prog) p)
  = handed_over (new_events (exec DefaultImage client' prog') p) /\
  n (sw (snd (exec DefaultImage client prog p)))
  = n (sw (snd (exec DefaultImage client' prog' p))).
Proof.
  intros Hd Hret Hret'.
  rewrite exec_outcome in Hret, Hret'. rewrite !exec_new_events.
  destruct (snd (trace DefaultImage client (Version (sw p)) (n (sw p)) prog)) eqn:Ht;
    [|discriminate].
  destruct (snd (trace DefaultImage client' (Version (sw p)) (n (sw p)) prog')) eqn:Ht';
    [|discriminate].
  destruct (trace_complete DefaultImage client _ prog _ Ht) as (_ & -> & _).
  destruct (trace_complete DefaultImage client' _ prog' _ Ht') as (_ & -> & _).
  destruct (exec_trace DefaultImage client prog p) as (q & -> & _ & _ & Hn).
  destruct (exec_trace DefaultImage client' prog' p) as (q' & -> & _ & _ & Hn').
  cbn [snd]. rewrite (Hn Ht), (Hn' Ht'), Hd. split; reflexivity.
Qed.

(** X5 on the pipeline of [demo/basic/build.go] against the same five
    steps declared in one call. *)
Lemma X5_witness :
  handed_over (new_events (exec demo.DefaultImage demo.accepting demo.basic) demo.fresh)
  = handed_over
      (new_events
         (exec demo.DefaultImage demo.warns_unnamed
            [ RunStmt [demo.install_frontend; demo.install_backend;
                       demo.write_version; demo.compile_backend;
                       demo.compile_frontend] ])
         demo.fresh).
Proof.
  refine (proj1 (X5_grouping_does_not_matter demo.DefaultImage demo.accepting
                   demo.warns_unnamed demo.basic _ demo.fresh eq_refl _ _)).
  - vm_compute. reflexivity.
  - vm_compute. reflexivity.
Defined.

(** X6.  [validateSteps] reads the slice and writes nothing but the log:
    counter, version and heap are as before.  It calls [Validate] on an
    initial part of the slice, in order, hands nothing to the client, logs
    at most one fatal report, and ends the process exactly when it logs
    one. *)
Theorem X6_validateSteps_only_logs
  (client : Client) (s : slice) (arr : list Step) (p : Process) :
  heap p !! s = Some arr ->
  let run := validateSteps client s p in
  let evs := new_events (validateSteps client s) p in
  sw (snd run) = sw p /\
  heap (snd run) = heap p /\
  log (snd run) = log p ++ evs /\
  validated evs `prefix_of` arr /\
  handed_over evs = [] /\
  (length (fatals evs) <= 1)%nat /\
  (fst run = Returned tt <-> fatals evs = []) /\
  (fst run = Exited 1 <-> fatals evs <> []).
Proof.
  intros Hs run evs.
  pose proof (validateSteps_ok client s p arr Hs) as Hrun.
  assert (Hevs : evs = fst (validation client arr)).
  { subst evs. eapply new_events_of; [exact Hrun | reflexivity]. }
  subst run. rewrite Hrun, Hevs. cbn [fst snd sw heap log].
  assert (Hf : if snd (validation client arr)
               then fatals (fst (validation client arr)) = []
               else exists m, fatals (fst (validation client arr)) = [m]).
  { clear. induction arr as [|v l IH]; [reflexivity|].
    cbn [validation].
    destruct (Validate client v) as [err|].
    - destruct (errors.Is_ErrorSkipValidation err); [|cbn; eauto].
      destruct (validation client l) as [evs [|]]; exact IH.
    - destruct (validation client l) as [evs [|]]; exact IH. }
  repeat split; try reflexivity.
  - apply validation_validated_prefix.
  - apply validation_handed_over.
  - destruct (snd (validation client arr)); [rewrite Hf; cbn; lia|].
    destruct Hf as [m ->]. cbn. lia.
  - destruct (snd (validation client arr)); [auto | discriminate].
  - destruct (snd (validation client arr)); [auto|].
    destruct Hf as [m ->]. discriminate.
  - destruct (snd (validation client arr)); [discriminate|].
    intros _. destruct Hf as [m ->]. discriminate.
  - destruct (snd (validation client arr)); [|reflexivity].
    intros H. now destruct H.
Qed.

(** X6 on a slice of three steps under a client that refuses the second:
    one fatal report, the heap untouched. *)
Lemma X6_witness :
  heap demo.holding !! 0%nat
  = Some [demo.install_frontend; demo.go_test; demo.compile_backend] /\
  heap (snd (validateSteps demo.refuses_unnamed 0%nat demo.holding))
  = heap demo.holding.
Proof.
  split; [reflexivity|].
  exact (proj1 (proj2 (X6_validateSteps_only_logs demo.refuses_unnamed 0%nat _
                         demo.holding eq_refl))).
Defined.

(** X7.  The report of a validation error for a step without a name can
    be read back: two such reports that are equal belong to steps with the
    same serial and carry the same error message.  So the generated labels
    of steps with different serials never coincide. *)
Theorem X7_unnamed_reports_identify_the_step
  (v v' : Step) (err err' : errors.error) :
  Name v = "" -> Name v' = "" ->
  formatError v err = formatError v' err' ->
  Serial v = Serial v' /\ errors.Error err = errors.Error err'.
Proof.
  intros Hv Hv' Heq. unfold formatError in Heq. rewrite Hv, Hv' in Heq.
  rewrite !decide_True in Heq by reflexivity.
  rewrite !app_assoc_string in Heq.
  apply (inj (String.app _)) in Heq. apply (inj (String.app _)) in Heq.
  pose proof (split_at_comma (pretty (Serial v)) (pretty (Serial v'))
                (" id: " +:+ pretty (Serial v) +:+ "] " +:+ errors.Error err)
                (" id: " +:+ pretty (Serial v') +:+ "] " +:+ errors.Error err')
                (pretty_Z_no_comma _) (pretty_Z_no_comma _) Heq) as [Hp Hr].
  apply (inj pretty) in Hp. split; [exact Hp|].
  rewrite Hp in Hr.
  apply (inj (String.app _)) in Hr. apply (inj (String.app _)) in Hr.
  apply (inj (String.app _)) in Hr. exact Hr.
Qed.

(** X7 on two steps without a name that carry the same serial and
    error. *)
Lemma X7_witness :
  Name demo.go_test = "" /\
  Serial demo.go_test = Serial (WithImage demo.go_test "golang:1.20") /\
  errors.Error (errors.New "no") = errors.Error (errors.ErrorSkipValidation "no").
Proof.
  split; [reflexivity|].
  exact (X7_unnamed_reports_identify_the_step demo.go_test
           (WithImage demo.go_test "golang:1.20")
           (errors.New "no") (errors.ErrorSkipValidation "no")
           eq_refl eq_refl eq_refl).
Defined.

(** X8.  [version] returns the trimmed output of the describe command and
    no error, or the empty string and an error; never a value next to an
    error.  The error wraps the error of the command that failed, so that
    the cause can be unwrapped, and that command is the last one run: a
    failure of the first command keeps the describe command from running.
    [version] only adds git commands to the history. *)
Theorem X8_version_value_or_wrapped_error
  (env : sys.Oracle) (TrimSpace : string -> string) (w : sys.World) :
  let r := docker.version env TrimSpace w in
  (snd (fst r) = None ->
     fst (fst r) = TrimSpace (fst (env (w ++ [docker.git_config]) docker.git_describe)) /\
     snd r = w ++ [docker.git_config; docker.git_describe]) /\
  (forall e, snd (fst r) = Some e ->
     fst (fst r) = "" /\
     exists cause last_run,
       errors.Unwrap e = Some cause /\
       last (snd r) = Some last_run /\
       snd (env (removelast (snd r)) last_run) = Some cause /\
       (last_run = docker.git_config /\ snd r = w ++ [docker.git_config] \/
        last_run = docker.git_describe /\
        snd r = w ++ [docker.git_config; docker.git_describe])) /\
  (exists added, snd r = w ++ added /\ forallb is_git added = true).
Proof.
  intros r. subst r. rewrite version_cases.
  destruct (snd (env w docker.git_config)) as [e1|] eqn:H1; cbn [fst snd].
  - split; [discriminate|]. split.
    + intros e [= <-]. split; [reflexivity|].
      exists e1, docker.git_config. cbn [errors.Unwrap].
      rewrite last_snoc, removelast_last. repeat split; auto.
    + exists [docker.git_config]. split; reflexivity.
  - destruct (snd (env (w ++ [docker.git_config]) docker.git_describe))
      as [e2|] eqn:H2; cbn [fst snd].
    + split; [discriminate|]. split.
      * intros e [= <-]. split; [reflexivity|].
        exists e2, docker.git_describe. cbn [errors.Unwrap].
        rewrite last_snoc, removelast_last, <- app_assoc. repeat split; auto.
      * exists [docker.git_config; docker.git_describe].
        rewrite <- app_assoc. split; reflexivity.
    + split.
      * intros _. rewrite <- app_assoc. split; reflexivity.
      * split; [discriminate|].
        exists [docker.git_config; docker.git_describe].
        rewrite <- app_assoc. split; reflexivity.
Qed.

(** X9.  The action of [BuildStep] never pushes and builds at most once.
    It builds only when [Tag] and then the second lookup of the version
    have both succeeded; otherwise it returns the error of the lookup that
    failed and builds nothing.  When it builds, the build is the last call:
    one name, the tag, the Dockerfile and the context of the image, and the
    version of the second lookup as the build argument VERSION; the action
    returns what the build returns. *)
Theorem X9_BuildStep_builds_after_both_lookups
  (env : sys.Oracle) (TrimSpace DefaultImage : string -> string)
  (SubImage : string -> string -> string)
  (i : docker.Image) (opts : ActionOpts) (w : sys.World) :
  let tagged := docker.Tag env TrimSpace DefaultImage SubImage i w in
  let looked := docker.version env TrimSpace (snd tagged) in
  let r := docker.BuildStep_action env TrimSpace DefaultImage SubImage i opts w in
  docker.pushes (snd r) = docker.pushes w /\
  (forall e, snd (fst tagged) = Some e ->
     fst r = Some e /\ builds (snd r) = builds w) /\
  (forall e, snd (fst tagged) = None -> snd (fst looked) = Some e ->
     fst r = Some e /\ builds (snd r) = builds w) /\
  (snd (fst tagged) = None -> snd (fst looked) = None ->
     builds (snd r) = S (builds w) /\
     last (snd r)
     = Some (sys.DockerBuild [fst (fst tagged)] (docker.Dockerfile i)
               (docker.Context i) [("VERSION", fst (fst looked))]) /\
     fst r = snd (env (removelast (snd r))
                    (sys.DockerBuild [fst (fst tagged)] (docker.Dockerfile i)
                       (docker.Context i) [("VERSION", fst (fst looked))]))).
Proof.
  intros tagged looked r. subst r.
  rewrite (BuildStep_action_cases env TrimSpace DefaultImage SubImage i opts w).
  cbn zeta. fold tagged. fold looked.
  assert (Hpt : docker.pushes (snd tagged) = docker.pushes w)
    by (subst tagged; now rewrite Tag_world, version_pushes).
  assert (Hbt : builds (snd tagged) = builds w)
    by (subst tagged; now rewrite Tag_world, version_builds).
  assert (Hpl : docker.pushes (snd looked) = docker.pushes w)
    by (subst looked; now rewrite version_pushes).
  assert (Hbl : builds (snd looked) = builds w)
    by (subst looked; now rewrite version_builds).
  destruct (snd (fst tagged)) as [e1|]; cbn [fst snd].
  - repeat split; try congruence; discriminate.
  - destruct (snd (fst looked)) as [e2|]; cbn [fst snd].
    + repeat split; try congruence; discriminate.
    + split; [rewrite !pushes_snoc, Hpl; cbn; lia|].
      split; [discriminate|]. split; [discriminate|].
      intros _ _. rewrite !builds_snoc, Hbl, last_snoc, removelast_last. cbn.
      repeat split. lia.
Qed.

(** X10.  In an environment where the git commands succeed and give the
    same answer every time, the action of [BuildStep] builds the image
    under the tag of that version and passes that same version as VERSION;
    and, with the token in the state, the action of [PushStep] of the same
    image pushes that same tag, with that token, to the default
    registry. *)
Theorem X10_build_and_push_agree
  (env : sys.Oracle) (TrimSpace DefaultImage : string -> string)
  (SubImage : string -> string -> string)
  (DefaultRegistry auth_token_key out auth : string)
  (i : docker.Image) (opts opts' : ActionOpts) (w w' : sys.World) :
  steady env out ->
  State_GetString opts' (docker.ArgumentDockerAuthToken auth_token_key) = inl auth ->
  let v := TrimSpace out in
  let tag := if decide (docker.Name i = "") then DefaultImage v
             else SubImage (docker.Name i) v in
  last (snd (docker.BuildStep_action env TrimSpace DefaultImage SubImage i opts w))
  = Some (sys.DockerBuild [tag] (docker.Dockerfile i) (docker.Context i)
            [("VERSION", v)]) /\
  last (snd (docker.PushStep_action env TrimSpace DefaultImage SubImage
               DefaultRegistry auth_token_key i opts' w'))
  = Some (sys.DockerPush tag DefaultRegistry auth).
Proof.
  intros Hs Hauth v tag. split.
  - rewrite (BuildStep_action_cases env TrimSpace DefaultImage SubImage i opts w).
    cbn zeta. rewrite (steady_Tag env TrimSpace DefaultImage SubImage out i w Hs).
    cbn [fst snd]. rewrite (steady_version env TrimSpace out _ Hs).
    cbn [fst snd]. apply last_snoc.
  - rewrite (PushStep_action_cases env TrimSpace DefaultImage SubImage
               DefaultRegistry auth_token_key i opts' w').
    cbn zeta. rewrite (steady_Tag env TrimSpace DefaultImage SubImage out i w' Hs).
    cbn [fst snd]. rewrite Hauth. cbn [snd]. apply last_snoc.
Qed.

(** X10 in the environment where the git commands succeed, for the root
    image, with the token in the state. *)
Lemma X10_witness :
  steady demo.git_works (String.app "v0.9.2-3-g1a2b3c4" (String "010"%char "")) /\
  State_GetString demo.with_token (docker.ArgumentDockerAuthToken demo.auth_token_key)
  = inl "s3cr3t" /\
  last (snd (docker.PushStep_action demo.git_works demo.TrimSpace demo.DefaultImage
               demo.SubImage demo.DefaultRegistry demo.auth_token_key
               docker.ScribeImage demo.with_token []))
  = Some (sys.DockerPush "grafana/shipwright:v0.9.2-3-g1a2b3c4"
            "https://index.docker.io/v1/" "s3cr3t").
Proof.
  assert (Hs : steady demo.git_works
                 (String.app "v0.9.2-3-g1a2b3c4" (String "010"%char "")))
    by (intros w; split; reflexivity).
  split; [exact Hs|]. split; [reflexivity|].
  exact (proj2 (X10_build_and_push_agree demo.git_works demo.TrimSpace
                  demo.DefaultImage demo.SubImage demo.DefaultRegistry
                  demo.auth_token_key _ "s3cr3t" docker.ScribeImage
                  demo.no_token demo.with_token [] [] Hs eq_refl)).
Defined.

(** X11.  [CopyFile] creates nothing before the source is open and the
    directory of the destination is cleared.  When the source cannot be
    opened it returns that error and makes no other call.  When [Stat] on
    the directory fails for another reason than that it does not exist,
    when the directory does not exist and cannot be made, or when [Stat]
    says it is not a directory, [CopyFile] returns that error (the error
    "not a directory" in the last case), closes the source and has neither
    created nor copied anything; only a directory that does not exist is
    ever made, with permissions 0755. *)
Theorem X11_CopyFile_stops_before_creating
  (env : fsutil.Oracle) (Dir : string -> string)
  (is_not_exist : errors.error -> bool) (from to : string) (w : fsutil.World) :
  let r := fsutil.CopyFile env Dir is_not_exist from to w in
  let w1 := w ++ [fsutil.Open from] in
  let st := env w1 (fsutil.Stat (Dir to)) in
  let made := env (w1 ++ [fsutil.Stat (Dir to)]) (fsutil.MkdirAll (Dir to) 493) in
  (forall e, fsutil.err (env w (fsutil.Open from)) = Some e ->
     r = (Some e, w ++ [fsutil.Open from])) /\
  (fsutil.err (env w (fsutil.Open from)) = None ->
     (forall e, fsutil.err st = Some e -> is_not_exist e = false ->
        r = (Some e, w ++ [fsutil.Open from; fsutil.Stat (Dir to); fsutil.Close from])) /\
     (forall e e', fsutil.err st = Some e -> is_not_exist e = true ->
        fsutil.err made = Some e' ->
        r = (Some e', w ++ [fsutil.Open from; fsutil.Stat (Dir to);
                            fsutil.MkdirAll (Dir to) 493; fsutil.Close from])) /\
     (fsutil.err st = None -> fsutil.info st = Some false ->
        r = (Some (errors.New "not a directory"),
             w ++ [fsutil.Open from; fsutil.Stat (Dir to); fsutil.Close from])) /\
     (fsutil.count fsutil.is_mkdir (snd r) <> fsutil.count fsutil.is_mkdir w ->
        exists e, fsutil.err st = Some e /\ is_not_exist e = true)).
Proof.
  intros r w1 st made. subst r. rewrite CopyFile_cases.
  split.
  - intros e ->. reflexivity.
  - intros ->. rewrite place_cases. fold w1.
    assert (Hc : fsutil.cleared env Dir is_not_exist to w1
                 = fsutil.cleared env Dir is_not_exist to w1) by reflexivity.
    unfold fsutil.cleared at 2 in Hc. fold st in Hc. fold made in Hc.
    split; [|split; [|split]].
    + intros e He Hne. rewrite He, Hne in Hc. rewrite Hc. cbn [fst snd].
      subst w1. now rewrite <- !app_assoc.
    + intros e e' He Hne Hm. rewrite He, Hne, Hm in Hc. rewrite Hc. cbn [fst snd].
      subst w1. now rewrite <- !app_assoc.
    + intros He Hi. rewrite He, Hi in Hc. rewrite Hc. cbn [fst snd].
      subst w1. now rewrite <- !app_assoc.
    + intros Hmk. destruct (fsutil.err st) as [e|] eqn:He.
      * destruct (is_not_exist e) eqn:Hne; [eauto|].
        exfalso. apply Hmk. rewrite Hc. cbn [fst snd]. subst w1.
        rewrite !count_app. cbn. lia.
      * exfalso. apply Hmk.
        destruct (fsutil.info st) as [[|]|]; rewrite Hc; cbn [fst snd];
          try rewrite write_cases;
          repeat match goal with
                 | |- context [match ?x with _ => _ end] => destruct x
                 end;
          cbn [fst snd]; subst w1; rewrite !count_app; cbn; lia.
Qed.

(** X12.  Once the source is open and the directory is cleared, [CopyFile]
    creates the destination.  If that fails it returns the error and
    closes the source; it copies nothing.  If it succeeds, [CopyFile]
    copies from the source into the destination, closes the destination,
    closes the source, in this order, and returns what the copy returned:
    both files are closed whether the copy failed or not.  [CopyFile]
    returns no error exactly when opening, clearing, creating and copying
    all succeeded. *)
Theorem X12_CopyFile_copies_then_closes_both
  (env : fsutil.Oracle) (Dir : string -> string)
  (is_not_exist : errors.error -> bool) (from to : string) (w : fsutil.World) :
  let r := fsutil.CopyFile env Dir is_not_exist from to w in
  let checked := fsutil.cleared env Dir is_not_exist to (w ++ [fsutil.Open from]) in
  let created := env (snd checked) (fsutil.Create to) in
  let copied := env (snd checked ++ [fsutil.Create to]) (fsutil.Copy to from) in
  (fsutil.err (env w (fsutil.Open from)) = None -> fst checked = None ->
     (forall e, fsutil.err created = Some e ->
        r = (Some e, snd checked ++ [fsutil.Create to; fsutil.Close from])) /\
     (fsutil.err created = None ->
        r = (fsutil.err copied,
             snd checked ++ [fsutil.Create to; fsutil.Copy to from;
                             fsutil.Close to; fsutil.Close from]))) /\
  (fst r = None <->
   fsutil.err (env w (fsutil.Open from)) = None /\ fst checked = None /\
   fsutil.err created = None /\ fsutil.err copied = None).
Proof.
  intros r checked created copied. subst r. rewrite CopyFile_cases.
  destruct (fsutil.err (env w (fsutil.Open from))) as [e0|].
  { split; [discriminate|]. cbn [fst]. split; [discriminate|].
    intros (H & _). discriminate. }
  rewrite place_cases. fold checked.
  destruct (fst checked) as [e1|].
  { cbn [fst snd]. split; [discriminate|]. split; [discriminate|].
    intros (_ & H & _). discriminate. }
  rewrite write_cases. fold created. fold copied.
  destruct (fsutil.err created) as [e2|]; cbn [fst snd].
  - split.
    + intros _ _. split; [|discriminate].
      intros e [= <-]. now rewrite <- app_assoc.
    + split; [discriminate|]. intros (_ & _ & H & _). discriminate.
  - split.
    + intros _ _. split; [discriminate|]. intros _. now rewrite <- app_assoc.
    + split; [intros ->; repeat split | intros (_ & _ & _ & H); exact H].
Qed.

(** X13.  The action [RunAt] returns starts exactly one command: the named
    one with the given arguments, in the given directory, under the context
    of the action, writing to the streams of the action, with no
    environment of its own; it returns what the command returns.  [Run] is
    [RunAt] in the directory ".", and [RunCommand] is [RunCommandAt]
    there. *)
Theorem X13_RunAt_starts_one_command
  (run : goexec.World -> goexec.Cmd -> option errors.error)
  (path name : string) (arg : list string)
  (ctx : goexec.Context) (opts : goexec.ActionOpts) (w : goexec.World) :
  let cmd := {| goexec.cmd_Context := ctx;
                goexec.cmd_Path := name;
                goexec.cmd_Args := name :: arg;
                goexec.cmd_Dir := path;
                goexec.cmd_Stdout := goexec.opts_Stdout opts;
                goexec.cmd_Stderr := goexec.opts_Stderr opts;
                goexec.cmd_Env := None |} in
  goexec.RunAt run path name arg ctx opts w = (run w cmd, w ++ [cmd]) /\
  goexec.Run run name arg ctx opts w = goexec.RunAt run "." name arg ctx opts w /\
  (forall stdout stderr,
     goexec.RunCommand run ctx stdout stderr name arg w
     = goexec.RunCommandAt run ctx stdout stderr "." name arg w).
Proof.
  intros cmd. subst cmd.
  unfold goexec.RunAt, goexec.Run, goexec.RunCommand, goexec.RunCommandAt,
    goexec.RunCommandWithOpts, goexec.Cmd_Run, goexec.CommandWithOpts.
  destruct opts as [[out|] [err|]]; repeat split.
Qed.

(** X14.  [New] on arguments that do not parse ends the process with one
    fatal report of the parse error; on arguments that parse to [nil] it
    ends the process with the report that the list must not be [nil].
    Otherwise it returns, logging nothing, the [Shipwright] the client
    constructor built for the given name and the parsed version, with the
    version set to the parsed one whatever the constructor had put there;
    so a step without an image registered on it gets the default image of
    the parsed version. *)
Theorem X14_New_sets_the_parsed_version
  (ParseArguments : list string ->
                    option entrypoint.PipelineArgs * option errors.error)
  (NewClient : entrypoint.CommonOpts -> Shipwright)
  (name program : string) (rest : list string) (p : Process) :
  let r := entrypoint.New ParseArguments NewClient name (program :: rest) p in
  (forall e, snd (ParseArguments rest) = Some e ->
     fst r = Exited 1 /\
     log (snd r)
     = log p ++ [Fatalln ("Error parsing arguments. Error: " +:+ errors.Error e)]) /\
  (ParseArguments rest = (None, None) ->
     fst r = Exited 1 /\
     log (snd r) = log p ++ [Fatalln "Arguments list must not be nil"]) /\
  (forall a, ParseArguments rest = (Some a, None) ->
     let built := NewClient {| entrypoint.opts_Name := name;
                               entrypoint.opts_Version := entrypoint.args_Version a;
                               entrypoint.opts_Args := a |} in
     r = (Returned {| n := n built; Version := entrypoint.args_Version a |}, p) /\
     forall DefaultImage q s arr i st,
       fst r = Returned (sw q) ->
       heap q !! s = Some arr -> arr !! i = Some st -> Image st = "" ->
       exists v,
         heap (snd (initSteps DefaultImage s q)) !! s ≫= (.!! i) = Some v /\
         Image v = DefaultImage (entrypoint.args_Version a)).
Proof.
  intros r. subst r. unfold entrypoint.New.
  destruct (ParseArguments rest) as [args err]. cbn [snd]. split; [|split].
  - intros e ->. rewrite bind_apply. split; reflexivity.
  - intros [= -> ->]. rewrite bind_apply. cbn [mret M_ret].
    rewrite bind_apply. split; reflexivity.
  - intros a [= -> ->]. rewrite bind_apply. cbn [mret M_ret].
    cbn zeta. split; [reflexivity|].
    intros DefaultImage q s arr i st Hq Hs Hi Himg.
    cbn [fst] in Hq. injection Hq as Hq.
    assert (Hsl : (s < length (heap q))%nat) by (eapply lookup_lt_Some; eauto).
    rewrite (initSteps_ok DefaultImage s q arr Hs). cbn [snd heap].
    rewrite list_lookup_insert_eq by exact Hsl. cbn.
    rewrite register_from_lookup, Hi. cbn.
    eexists. split; [reflexivity|].
    rewrite registered_Image, decide_True by exact Himg.
    now rewrite <- Hq.
Qed.

(** X15.  A step built by [golang.Test] comes through registration with
    its image golang:1.19, never the default image, whatever the version;
    it asks for the source tree only, runs go test on the package, and its
    serial is the counter value of its position. *)
Theorem X15_test_step_keeps_its_image
  (RunAction : string -> list string -> StepAction)
  (DefaultImage : string -> string) (client : Client)
  (prog : list Stmt) (p : Process) (sw0 : Shipwright) (pkg : string)
  (N : nat) (v : Step) :
  flat_map declared prog !! N = Some (golang.Test RunAction sw0 pkg) ->
  handed_over (new_events (exec DefaultImage client prog) p) !! N = Some v ->
  Image v = "golang:1.19" /\
  Arguments v = [ArgumentSourceFS] /\
  Action v = RunAction "go" ["test"; pkg] /\
  Serial v = counter (n (sw p)) N.
Proof.
  intros Hd Hv.
  destruct (exec_handed_nth _ _ _ _ _ _ Hv) as (st & Hst & ->).
  rewrite Hd in Hst. injection Hst as <-. repeat split.
Qed.

(** X15 on a pipeline that tests a package as its second step. *)
Lemma X15_witness :
  exists v,
    handed_over (new_events (exec demo.DefaultImage demo.wants_image demo_more.tested)
                   demo.fresh) !! 1%nat = Some v /\
    Image v = "golang:1.19" /\ Serial v = 1.
Proof.
  assert (Hv : handed_over
                 (new_events (exec demo.DefaultImage demo.wants_image demo_more.tested)
                    demo.fresh) !! 1%nat
               = Some (registered demo.DefaultImage "latest" 1
                         (golang.Test demo_more.RunAction (sw demo.fresh) "./...")))
    by (vm_compute; reflexivity).
  eexists. split; [exact Hv|].
  destruct (X15_test_step_keeps_its_image demo_more.RunAction demo.DefaultImage
              demo.wants_image demo_more.tested demo.fresh (sw demo.fresh) "./..."
              1%nat _ eq_refl Hv) as (Hi & _ & _ & Hs).
  split; [exact Hi|]. rewrite Hs. vm_compute. reflexivity.
Defined.

(** X16.  [mayhemit], with the functions under test taken as calls that
    return, gives 0 and calls at most one of them.  It calls none on an input of fewer than three bytes, nor
    when the first byte is above 6.  On a longer input whose first byte is
    at most 6 it calls exactly one, chosen by that byte, and the consumer
    is built from the input without that byte: the byte 6 slugifies the
    first string of the consumer, and the byte 0 parses as many strings as
    the first integer of the consumer says, none when it is negative. *)
Theorem X16_mayhemit_dispatches_on_the_first_byte
  (CommandOpts PipelineCommandOpts Consumer : Type)
  (NewConsumer : list Byte.byte -> Consumer)
  (GetInt : Consumer -> Z * Consumer)
  (GetString : Consumer -> string * Consumer)
  (GenerateCommandOpts : Consumer -> CommandOpts * Consumer)
  (GeneratePipelineCommandOpts : Consumer -> PipelineCommandOpts * Consumer)
  (data : list Byte.byte) :
  let r := fuzz_scribe.mayhemit CommandOpts PipelineCommandOpts Consumer NewConsumer
             GetInt GetString GenerateCommandOpts GeneratePipelineCommandOpts data in
  fst r = 0 /\
  (length (snd r) <= 1)%nat /\
  ((length data <= 2)%nat -> snd r = []) /\
  (forall b rest, data = b :: rest ->
     (6 < Byte.to_N b)%N -> snd r = []) /\
  (forall b rest, data = b :: rest -> (2 < length data)%nat ->
     (Byte.to_N b <= 6)%N -> length (snd r) = 1%nat) /\
  (forall rest, data = Byte.x06 :: rest -> (2 < length data)%nat ->
     snd r = [fuzz_scribe.stringutil_Slugify CommandOpts PipelineCommandOpts
                (fst (GetString (NewConsumer rest)))]) /\
  (forall rest, data = Byte.x00 :: rest -> (2 < length data)%nat ->
     exists testArgs,
       snd r = [fuzz_scribe.args_ParseArguments CommandOpts PipelineCommandOpts testArgs] /\
       length testArgs = Z.to_nat (fst (GetInt (NewConsumer rest)))).
Proof.
  intros r. subst r. unfold fuzz_scribe.mayhemit.
  destruct (2 <? length data)%nat eqn:Hlen.
  2:{ apply Nat.ltb_ge in Hlen. cbn [fst snd].
      repeat split; try (intros; subst; cbn in *; lia); auto. }
  apply Nat.ltb_lt in Hlen.
  destruct data as [|b rest]; [cbn in Hlen; lia|].
  assert (Hcases : (6 < Byte.to_N b)%N \/ Byte.to_N b = 0%N \/ Byte.to_N b = 1%N \/
                   Byte.to_N b = 2%N \/ Byte.to_N b = 3%N \/ Byte.to_N b = 4%N \/
                   Byte.to_N b = 5%N \/ Byte.to_N b = 6%N) by lia.
  assert (H6 : forall rest', b :: rest = Byte.x06 :: rest' ->
                             Byte.to_N b = 6%N /\ rest' = rest)
    by (intros rest' [= -> ->]; split; reflexivity).
  assert (H0 : forall rest', b :: rest = Byte.x00 :: rest' ->
                             Byte.to_N b = 0%N /\ rest' = rest)
    by (intros rest' [= -> ->]; split; reflexivity).
  assert (Hb : forall b0 rest0, b :: rest = b0 :: rest0 -> b0 = b)
    by (intros ? ? [= -> _]; reflexivity).
  destruct (GetInt (NewConsumer rest)) as [k c] eqn:HI.
  destruct (GetString (NewConsumer rest)) as [str c'] eqn:HS.
  destruct (GenerateCommandOpts (NewConsumer rest)) as [co c1].
  destruct (GeneratePipelineCommandOpts (NewConsumer rest)) as [po c2].
  pose proof (collect_length Consumer GetString (Z.to_nat k) c []) as Hcol.
  destruct (fuzz_scribe.collect Consumer GetString (Z.to_nat k) c [])
    as [testArgs c3] eqn:HC.
  cbn [fst snd length] in *.
  destruct Hcases as [Hbig|Hsmall].
  - assert (Hnum : exists q, Z.of_N (Byte.to_N b) = Z.pos q /\ (6 < q)%positive).
    { destruct (Byte.to_N b) as [|q]; [lia|]. exists q. split; [reflexivity | lia]. }
    destruct Hnum as (q & -> & Hq).
    assert (Hnone : (match q with
                     | 1%positive => (0, [fuzz_scribe.cmdutil_StepCommand CommandOpts PipelineCommandOpts co])
                     | 2%positive => (0, [fuzz_scribe.cmdutil_PipelineCommand CommandOpts PipelineCommandOpts po])
                     | 3%positive => (0, [fuzz_scribe.jsonnet_Lint CommandOpts PipelineCommandOpts str])
                     | 4%positive => (0, [fuzz_scribe.jsonnet_Format CommandOpts PipelineCommandOpts str])
                     | 5%positive => (0, [fuzz_scribe.stringutil_Random CommandOpts PipelineCommandOpts k])
                     | 6%positive => (0, [fuzz_scribe.stringutil_Slugify CommandOpts PipelineCommandOpts str])
                     | _ => (0, [])
                     end) = (0, [])).
    { do 3 (destruct q as [q|q|]; try reflexivity; try lia). }
    rewrite Hnone. cbn [fst snd length].
    split; [reflexivity|]. split; [lia|]. split; [lia|].
    split; [reflexivity|].
    split; [intros b0 rest0 Heq; rewrite (Hb _ _ Heq); lia|]. split.
    + intros rest' Heq _. destruct (H6 _ Heq). lia.
    + intros rest' Heq _. destruct (H0 _ Heq). lia.
  - destruct Hsmall as [Hb0|[Hb0|[Hb0|[Hb0|[Hb0|[Hb0|Hb0]]]]]];
      rewrite Hb0; cbn [Z.of_N fst snd length];
      (split; [reflexivity|]); (split; [lia|]); (split; [lia|]);
      (split; [intros b0 rest0 Heq; rewrite (Hb _ _ Heq); lia|]);
      (split; [reflexivity|]); split;
      try (intros rest' Heq _; destruct (H6 _ Heq) as [Hz ->];
           first [lia | rewrite HS; reflexivity]);
      try (intros rest' Heq _; destruct (H0 _ Heq) as [Hz ->];
           first [lia | exists testArgs; rewrite HI; cbn [fst];
                        split; [reflexivity | lia]]).
Qed.

(** X17.  [BuildSteps] and [PushSteps] give one step per image, in the
    order of the images: the step at a position is the build step, or the
    push step, of the image at that position, named after it.  So the two
    lists pair up image by image, and the push step of an image asks for
    everything its build step asks for and for the auth token besides. *)
Theorem X17_build_and_push_steps_follow_the_images
  (env : sys.Oracle) (TrimSpace DefaultImage : string -> string)
  (SubImage : string -> string -> string)
  (DefaultRegistry auth_token_key : string)
  (sw0 : Shipwright) (images : list docker.Image) :
  let build := docker.BuildSteps env TrimSpace DefaultImage SubImage sw0 images in
  let push := docker.PushSteps env TrimSpace DefaultImage SubImage DefaultRegistry
                auth_token_key sw0 images in
  length build = length images /\
  length push = length images /\
  forall k image, images !! k = Some image ->
    exists b q,
      build !! k = Some b /\ push !! k = Some q /\
      Name b = "build " +:+ docker.Name image +:+ " image" /\
      Name q = "push " +:+ docker.Name image /\
      Action b = docker.BuildStep_action env TrimSpace DefaultImage SubImage image /\
      Action q = docker.PushStep_action env TrimSpace DefaultImage SubImage
                   DefaultRegistry auth_token_key image /\
      Image b = SubImage "docker" (Version sw0) /\
      Image q = Image b /\
      Arguments q
      = Arguments b ++ [docker.ArgumentDockerAuthToken auth_token_key].
Proof.
  intros build push. subst build push.
  unfold docker.BuildSteps, docker.PushSteps.
  rewrite !length_map. split; [reflexivity|]. split; [reflexivity|].
  intros k image Hk.
  change (@map docker.Image Step) with (@fmap list _ docker.Image Step).
  rewrite !list_lookup_fmap, Hk. cbn.
  eexists _, _. repeat split.
Qed.
